(** * Superellipsoid morphing scene (multiple_lights.cpp)

    A shallow embedding of the mesh generator, of the spawn registry with its
    edge-triggered latch, of the frame loop and of the texture loader, and the
    properties the specification states about them.

    Conventions of the embedding.
    - [float] and [double] are read as the real numbers they approximate:
      every floating-point operation is the exact real operation and the
      macro [M_PI] is the number pi.
    - [int] is 32 bits wide.  The arithmetic on [int] that builds the index
      list is written with its two's-complement wrap-around, and the
      conversion to [unsigned int] done by [indices.push_back] is the
      reduction modulo 2^32.
    - [std::vector] is a list, [push_back] appends at the end. *)

From Stdlib Require Import ZArith String Bool List Lia.
From Stdlib Require Import Reals Lra.
Import ListNotations.

Local Open Scope Z_scope.

(** ** Machine integers *)

Module MachineInt.

Definition INT_MAX : Z := 2147483647.
Definition UINT_RANGE : Z := 4294967296.

(** The value an [int] variable holds after a computation whose exact
    result is [z]. *)
Definition int_wrap (z : Z) : Z := (z + 2147483648) mod UINT_RANGE - 2147483648.

Definition int_add (x y : Z) : Z := int_wrap (x + y).
Definition int_mul (x y : Z) : Z := int_wrap (x * y).

(** Conversion of an [int] to [unsigned int]. *)
Definition to_uint (z : Z) : Z := z mod UINT_RANGE.

End MachineInt.
Import MachineInt.

(** ** glm vectors *)

Local Open Scope R_scope.

Record vec2 : Type := mkvec2 { vx2 : R; vy2 : R }.
Record vec3 : Type := mkvec3 { vx : R; vy : R; vz : R }.

(** [vec3 + vec3] *)
Definition vadd (p q : vec3) : vec3 :=
  mkvec3 (vx p + vx q) (vy p + vy q) (vz p + vz q).

(** [vec3 * float] *)
Definition vscale (p : vec3) (k : R) : vec3 :=
  mkvec3 (vx p * k) (vy p * k) (vz p * k).

Definition dot (p q : vec3) : R := vx p * vx q + vy p * vy q + vz p * vz q.

(** [glm::length] *)
Definition vlength (p : vec3) : R := sqrt (dot p p).

(** [glm::normalize(v)] is [v * inversesqrt(dot(v, v))]. *)
Definition normalize (p : vec3) : vec3 := vscale p (1 / sqrt (dot p p)).

(** ** The mesh generator *)

Record Vertex : Type := mkVertex {
  Position : vec3;
  Normal : vec3;
  TexCoords : vec2
}.

Definition M_PI : R := PI.

(** [std::pow] on a base that is not negative (the generator only calls it on
    [std::abs(base)]).  [pow(0, y)] is 0 for a positive [y] and 1 for [y = 0];
    for a negative [y] it is an infinity, which no real number stands for. *)
Definition std_pow (x y : R) : R :=
  if Req_dec_T x 0
  then (if Req_dec_T y 0 then 1 else 0)
  else Rpower x y.

(** The two lambdas of [generateSuperellipsoid]. *)
Definition sgn (x : R) : R := if Rlt_dec x 0 then -1 else 1.
Definition powe (base e : R) : R := sgn base * std_pow (Rabs base) e.

(** The two output containers, passed by reference. *)
Record Mesh : Type := mkMesh {
  vertices : list Vertex;
  indices : list Z
}.

Definition push_vertex (vtx : Vertex) (m : Mesh) : Mesh :=
  mkMesh (vertices m ++ [vtx]) (indices m).

Definition push_index (k : Z) (m : Mesh) : Mesh :=
  mkMesh (vertices m) (indices m ++ [to_uint k]).

(** [for (int i = lo; ...; i++)] run for [n] rounds from [i]. *)
Fixpoint for_loop {S : Type} (n : nat) (i : Z) (body : Z -> S -> S) (s : S) : S :=
  match n with
  | O => s
  | S n' => for_loop n' (i + 1)%Z body (body i s)
  end.

(** [for (int i = 0; i <= hi; i++)] and [for (int i = 0; i < hi; i++)].  The
    counter takes the values 0, 1, ... in turn, so the loops make [hi + 1]
    and [hi] rounds (none when that number is not positive).  The counter
    itself never leaves the range of [int] as long as [hi] is below
    [INT_MAX]. *)
Definition for_le {S : Type} (hi : Z) (body : Z -> S -> S) (s : S) : S :=
  for_loop (Z.to_nat (hi + 1)) 0%Z body s.

Definition for_lt {S : Type} (hi : Z) (body : Z -> S -> S) (s : S) : S :=
  for_loop (Z.to_nat hi) 0%Z body s.

(** The body of the inner vertex loop: the vertex pushed for [(i, j)]. *)
Definition make_vertex (a b c n1 n2 : R) (stacks slices i j : Z) : Vertex :=
  let u := - M_PI / 2 + IZR i / IZR stacks * M_PI in
  let v := - M_PI + IZR j / IZR slices * 2 * M_PI in
  let cu := cos u in let su := sin u in
  let cv := cos v in let sv := sin v in
  let x := a * powe cu n1 * powe cv n2 in
  let y := b * powe cu n1 * powe sv n2 in
  let z := c * powe su n1 in
  let pos := mkvec3 x y z in
  let n := normalize (mkvec3 (x / (a * a)) (y / (b * b)) (z / (c * c))) in
  let tex := mkvec2 (IZR j / IZR slices) (IZR i / IZR stacks) in
  mkVertex pos n tex.

(** The body of the inner index loop: the six indices pushed for [(i, j)]. *)
Definition push_cell (slices i j : Z) (m : Mesh) : Mesh :=
  let first := int_add (int_mul i (int_add slices 1)) j in
  let second := int_add (int_add first slices) 1 in
  let m := push_index first m in
  let m := push_index second m in
  let m := push_index (int_add first 1) m in
  let m := push_index second m in
  let m := push_index (int_add second 1) m in
  push_index (int_add first 1) m.

Definition generateSuperellipsoid
    (m : Mesh) (a b c n1 n2 : R) (stacks slices : Z) : Mesh :=
  let m := mkMesh [] (indices m) in   (* vertices.clear() *)
  let m := mkMesh (vertices m) [] in  (* indices.clear() *)
  let m :=
    for_le stacks (fun i m =>
      for_le slices (fun j m =>
        push_vertex (make_vertex a b c n1 n2 stacks slices i j) m) m) m in
  for_lt stacks (fun i m =>
    for_lt slices (fun j m => push_cell slices i j m) m) m.

(** The default arguments [stacks = 64, slices = 64]. *)
Definition generateSuperellipsoid_default (m : Mesh) (a b c n1 n2 : R) : Mesh :=
  generateSuperellipsoid m a b c n1 n2 64 64.

(** ** The mesh as the specification describes it *)

(** The counter values of a loop: [i, i+1, ..., i+n-1]. *)
Fixpoint zseq (i : Z) (n : nat) : list Z :=
  match n with
  | O => []
  | S n' => i :: zseq (i + 1)%Z n'
  end.

(** The grid cells [0 <= i < stacks], [0 <= j < slices], row-major: [i]
    outer, [j] inner. *)
Definition grid_cells (stacks slices : Z) : list (Z * Z) :=
  flat_map (fun i => map (pair i) (zseq 0 (Z.to_nat slices)))
           (zseq 0 (Z.to_nat stacks)).

(** The two triangles of cell [(i, j)], with exact integers. *)
Definition cell_triangles (slices : Z) (cell : Z * Z) : list Z :=
  let first := (fst cell * (slices + 1) + snd cell)%Z in
  let second := (first + slices + 1)%Z in
  [first; second; (first + 1)%Z; second; (second + 1)%Z; (first + 1)%Z].

Definition spec_indices (stacks slices : Z) : list Z :=
  flat_map (cell_triangles slices) (grid_cells stacks slices).

(** The mathematical sign function, with [sign 0 = 0]. *)
Definition sign (x : R) : R :=
  if Rlt_dec x 0 then -1 else if Req_dec_T x 0 then 0 else 1.

(** [sgnpow(base, exp) = sign(base) * |base|^exp], for a sign function [sg]. *)
Definition sgnpow (sg : R -> R) (base e : R) : R := sg base * std_pow (Rabs base) e.

Definition spec_u (stacks i : Z) : R := - PI / 2 + (IZR i / IZR stacks) * PI.
Definition spec_v (slices j : Z) : R := - PI + (IZR j / IZR slices) * (2 * PI).

Definition spec_position (sg : R -> R) (a b c n1 n2 : R) (stacks slices i j : Z) : vec3 :=
  let u := spec_u stacks i in
  let v := spec_v slices j in
  mkvec3 (a * sgnpow sg (cos u) n1 * sgnpow sg (cos v) n2)
         (b * sgnpow sg (cos u) n1 * sgnpow sg (sin v) n2)
         (c * sgnpow sg (sin u) n1).

Definition spec_normal (a b c : R) (p : vec3) : vec3 :=
  normalize (mkvec3 (vx p / a ^ 2) (vy p / b ^ 2) (vz p / c ^ 2)).

Definition spec_vertex (sg : R -> R) (a b c n1 n2 : R) (stacks slices i j : Z) : Vertex :=
  let p := spec_position sg a b c n1 n2 stacks slices i j in
  mkVertex p (spec_normal a b c p) (mkvec2 (IZR j / IZR slices) (IZR i / IZR stacks)).

(** The vertex pushed at grid position [(i, j)]: rows hold [slices + 1]
    vertices each. *)
Definition vertex_at (m : Mesh) (slices i j : Z) : option Vertex :=
  nth_error (vertices m) (Z.to_nat (i * (slices + 1) + j)).

(** The six values [push_cell] stores for a cell. *)
Definition stored_cell (slices i j : Z) : list Z :=
  let first := int_add (int_mul i (int_add slices 1)) j in
  let second := int_add (int_add first slices) 1 in
  map to_uint [first; second; int_add first 1; second; int_add second 1; int_add first 1].

(** The vertex list and the index list of the generator, row after row. *)
Definition vertex_rows (a b c n1 n2 : R) (stacks slices : Z) : list Vertex :=
  flat_map (fun i => map (make_vertex a b c n1 n2 stacks slices i)
                         (zseq 0 (Z.to_nat (slices + 1))))
           (zseq 0 (Z.to_nat (stacks + 1))).

Definition stored_indices (stacks slices : Z) : list Z :=
  flat_map (fun i => flat_map (stored_cell slices i) (zseq 0 (Z.to_nat slices)))
           (zseq 0 (Z.to_nat stacks)).

(** ** The camera (learnopengl/camera.h)

    The camera class is not part of this program; the scene uses a position,
    a front direction, a zoom and three update methods. *)

Inductive Camera_Movement : Type := FORWARD | BACKWARD | LEFT | RIGHT.

Class CameraClass (Camera : Type) : Type := {
  CamPosition : Camera -> vec3;
  CamFront : Camera -> vec3;
  CamZoom : Camera -> R;
  ProcessKeyboard : Camera_Movement -> R -> Camera -> Camera;
  ProcessMouseMovement : R -> R -> Camera -> Camera;
  ProcessMouseScroll : R -> Camera -> Camera
}.

(** A camera that flies along its front and a fixed right direction; it
    serves as a concrete instance. *)
Record FlyCamera : Type := mkFlyCamera { flyPosition : vec3; flyFront : vec3 }.

Definition fly_step (dir : Camera_Movement) (dt : R) (cam : FlyCamera) : FlyCamera :=
  let right := mkvec3 1 0 0 in
  match dir with
  | FORWARD => mkFlyCamera (vadd (flyPosition cam) (vscale (flyFront cam) dt)) (flyFront cam)
  | BACKWARD => mkFlyCamera (vadd (flyPosition cam) (vscale (flyFront cam) (- dt))) (flyFront cam)
  | LEFT => mkFlyCamera (vadd (flyPosition cam) (vscale right (- dt))) (flyFront cam)
  | RIGHT => mkFlyCamera (vadd (flyPosition cam) (vscale right dt)) (flyFront cam)
  end.

#[export] Instance FlyCameraClass : CameraClass FlyCamera := {
  CamPosition := flyPosition;
  CamFront := flyFront;
  CamZoom := fun _ => 45;
  ProcessKeyboard := fly_step;
  ProcessMouseMovement := fun _ _ cam => cam;
  ProcessMouseScroll := fun _ cam => cam
}.

(** ** Output, OpenGL calls and the program state *)

(** What is sent to [std::cout] with [<<]. *)
Inductive Out : Type :=
| OutStr (s : string)
| OutFloat (x : R)
| OutEndl.

(** A model matrix, as the transformations applied to [glm::mat4(1.0f)]. *)
Inductive Transform : Type :=
| Translate (by_ : vec3)
| Rotate (angle : R) (axis : vec3)
| Scale (by_ : vec3).

Definition mat4 : Type := list Transform.

Inductive GLFormat : Type := GL_RED | GL_RGB | GL_RGBA.

Inductive BufferTarget : Type := GL_ARRAY_BUFFER_VBO | GL_ELEMENT_ARRAY_BUFFER_EBO.

Inductive Payload : Type :=
| VertexData (vs : list Vertex)
| IndexData (ks : list Z).

Inductive GLCall : Type :=
| glViewport (x y width height : Z)
| glGenTextures (name : Z)
| glBindTexture (name : Z)
| glTexImage2D (format : option GLFormat) (width height : Z) (data : list Z)
| glGenerateMipmap
| glTexParameteri (pname param : string)
| glBufferData (target : BufferTarget) (payload : Payload)
| glBufferSubData (target : BufferTarget) (payload : Payload)
| setMat4_model (model : mat4)
| glDrawElements (count : nat)
| glDrawArrays (count : nat)
| glfwSwapBuffers.

(** A decoded image, as [stbi_load] returns it. *)
Record Image : Type := mkImage {
  width : Z;
  height : Z;
  nrComponents : Z;
  data : list Z
}.

(** The global variables of the program, the close flag of the window, and
    what the program has printed and asked of OpenGL so far. *)
Record World (Camera : Type) : Type := mkWorld {
  camera : Camera;
  lastX : R;
  lastY : R;
  firstMouse : bool;
  deltaTime : R;
  lastFrame : R;
  spawnedSuperellipsoids : list vec3;
  e_pressed_last_frame : bool;
  windowShouldClose : bool;
  cout : list Out;
  gl : list GLCall
}.

Arguments mkWorld {Camera}.
Arguments camera {Camera}.
Arguments lastX {Camera}.
Arguments lastY {Camera}.
Arguments firstMouse {Camera}.
Arguments deltaTime {Camera}.
Arguments lastFrame {Camera}.
Arguments spawnedSuperellipsoids {Camera}.
Arguments e_pressed_last_frame {Camera}.
Arguments windowShouldClose {Camera}.
Arguments cout {Camera}.
Arguments gl {Camera}.

Section Program.

Context {Camera : Type} `{CameraClass Camera}.

Definition set_camera (cam : Camera) (w : World Camera) : World Camera :=
  mkWorld cam (lastX w) (lastY w) (firstMouse w) (deltaTime w) (lastFrame w)
    (spawnedSuperellipsoids w) (e_pressed_last_frame w) (windowShouldClose w)
    (cout w) (gl w).

Definition set_mouse (x y : R) (first : bool) (w : World Camera) : World Camera :=
  mkWorld (camera w) x y first (deltaTime w) (lastFrame w)
    (spawnedSuperellipsoids w) (e_pressed_last_frame w) (windowShouldClose w)
    (cout w) (gl w).

Definition set_timing (delta last : R) (w : World Camera) : World Camera :=
  mkWorld (camera w) (lastX w) (lastY w) (firstMouse w) delta last
    (spawnedSuperellipsoids w) (e_pressed_last_frame w) (windowShouldClose w)
    (cout w) (gl w).

(** [spawnedSuperellipsoids.push_back(p)] *)
Definition push_spawned (p : vec3) (w : World Camera) : World Camera :=
  mkWorld (camera w) (lastX w) (lastY w) (firstMouse w) (deltaTime w) (lastFrame w)
    (spawnedSuperellipsoids w ++ [p]) (e_pressed_last_frame w) (windowShouldClose w)
    (cout w) (gl w).

Definition set_e_pressed_last_frame (e : bool) (w : World Camera) : World Camera :=
  mkWorld (camera w) (lastX w) (lastY w) (firstMouse w) (deltaTime w) (lastFrame w)
    (spawnedSuperellipsoids w) e (windowShouldClose w) (cout w) (gl w).

(** [glfwSetWindowShouldClose(window, true)] *)
Definition glfwSetWindowShouldClose (w : World Camera) : World Camera :=
  mkWorld (camera w) (lastX w) (lastY w) (firstMouse w) (deltaTime w) (lastFrame w)
    (spawnedSuperellipsoids w) (e_pressed_last_frame w) true (cout w) (gl w).

Definition print (out : list Out) (w : World Camera) : World Camera :=
  mkWorld (camera w) (lastX w) (lastY w) (firstMouse w) (deltaTime w) (lastFrame w)
    (spawnedSuperellipsoids w) (e_pressed_last_frame w) (windowShouldClose w)
    (cout w ++ out) (gl w).

Definition call (calls : list GLCall) (w : World Camera) : World Camera :=
  mkWorld (camera w) (lastX w) (lastY w) (firstMouse w) (deltaTime w) (lastFrame w)
    (spawnedSuperellipsoids w) (e_pressed_last_frame w) (windowShouldClose w)
    (cout w) (gl w ++ calls).

(** *** Input *)

(** What [glfwGetKey(window, key) == GLFW_PRESS] answers for the six keys
    during one call of [processInput]. *)
Record Keys : Type := mkKeys {
  KEY_ESCAPE : bool;
  KEY_W : bool;
  KEY_S : bool;
  KEY_A : bool;
  KEY_D : bool;
  KEY_E : bool
}.

Definition processInput (keys : Keys) (w : World Camera) : World Camera :=
  let w := if KEY_ESCAPE keys then glfwSetWindowShouldClose w else w in
  let w := if KEY_W keys
           then set_camera (ProcessKeyboard FORWARD (deltaTime w) (camera w)) w else w in
  let w := if KEY_S keys
           then set_camera (ProcessKeyboard BACKWARD (deltaTime w) (camera w)) w else w in
  let w := if KEY_A keys
           then set_camera (ProcessKeyboard LEFT (deltaTime w) (camera w)) w else w in
  let w := if KEY_D keys
           then set_camera (ProcessKeyboard RIGHT (deltaTime w) (camera w)) w else w in
  let e_is_pressed := KEY_E keys in
  let w :=
    if e_is_pressed && negb (e_pressed_last_frame w)
    then
      let spawn_pos := vadd (CamPosition (camera w)) (vscale (CamFront (camera w)) 2) in
      let w := push_spawned spawn_pos w in
      print [OutStr "Superellipsoid spawned at: ("; OutFloat (vx spawn_pos);
             OutStr ", "; OutFloat (vy spawn_pos);
             OutStr ", "; OutFloat (vz spawn_pos); OutStr ")"; OutEndl] w
    else w in
  set_e_pressed_last_frame e_is_pressed w.

Definition framebuffer_size_callback (width height : Z) (w : World Camera) : World Camera :=
  call [glViewport 0 0 width height] w.

Definition mouse_callback (xpos ypos : R) (w : World Camera) : World Camera :=
  let w := if firstMouse w then set_mouse xpos ypos false w else w in
  let xoffset := xpos - lastX w in
  let yoffset := lastY w - ypos in
  let w := set_mouse xpos ypos (firstMouse w) w in
  set_camera (ProcessMouseMovement xoffset yoffset (camera w)) w.

Definition scroll_callback (xoffset yoffset : R) (w : World Camera) : World Camera :=
  set_camera (ProcessMouseScroll yoffset (camera w)) w.

(** What [glfwPollEvents] delivers. *)
Inductive Event : Type :=
| FramebufferSize (width height : Z)
| CursorPos (xpos ypos : R)
| Scroll (xoffset yoffset : R)
| WindowClose.

Definition deliver (ev : Event) (w : World Camera) : World Camera :=
  match ev with
  | FramebufferSize width height => framebuffer_size_callback width height w
  | CursorPos xpos ypos => mouse_callback xpos ypos w
  | Scroll xoffset yoffset => scroll_callback xoffset yoffset w
  | WindowClose => glfwSetWindowShouldClose w
  end.

Definition glfwPollEvents (events : list Event) (w : World Camera) : World Camera :=
  fold_left (fun w ev => deliver ev w) events w.

(** *** The texture loader *)

(** [loadTexture(path)]: [name] is what [glGenTextures] writes to
    [textureID], [decoded] is what [stbi_load] returns for [path] (no
    image when the pointer is null).  [format] stays uninitialised for a
    component count other than 1, 3 and 4; [stbi_image_free] leaves no
    trace. *)
Definition loadTexture (path : string) (name : Z) (decoded : option Image)
    (w : World Camera) : Z * World Camera :=
  let textureID := name in
  let w := call [glGenTextures textureID] w in
  match decoded with
  | Some img =>
      let format :=
        if (nrComponents img =? 1)%Z then Some GL_RED
        else if (nrComponents img =? 3)%Z then Some GL_RGB
        else if (nrComponents img =? 4)%Z then Some GL_RGBA
        else None in
      let w := call [glBindTexture textureID;
                     glTexImage2D format (width img) (height img) (data img);
                     glGenerateMipmap;
                     glTexParameteri "GL_TEXTURE_WRAP_S" "GL_REPEAT";
                     glTexParameteri "GL_TEXTURE_WRAP_T" "GL_REPEAT";
                     glTexParameteri "GL_TEXTURE_MIN_FILTER" "GL_LINEAR_MIPMAP_LINEAR";
                     glTexParameteri "GL_TEXTURE_MAG_FILTER" "GL_LINEAR"] w in
      (textureID, w)
  | None =>
      let w := print [OutStr "Texture failed to load at path: "; OutStr path; OutEndl] w in
      (textureID, w)
  end.

(** *** The frame loop *)

(** The morph parameters of a frame. *)
Definition morph_n1 (t : R) : R := 0.2 + 1.8 * (sin (t * 1.2) * 0.5 + 0.5).
Definition morph_n2 (t : R) : R := 0.2 + 1.8 * (cos (t * 0.8) * 0.5 + 0.5).

(** What the surroundings contribute to one round of the render loop:
    the successive answers of [glfwGetTime], the key states seen by
    [processInput] and the events delivered by [glfwPollEvents]. *)
Record Frame : Type := mkFrame {
  glfwGetTime : nat -> R;
  keys : Keys;
  events : list Event
}.

(** The variables of [main] that live across rounds. *)
Record Loop : Type := mkLoop {
  world : World Camera;
  mesh : Mesh;           (* superellipsoidVertices, superellipsoidIndices *)
  diffuseMap : Z
}.

Definition y_axis : vec3 := mkvec3 0 1 0.

(** The range-for over [spawnedSuperellipsoids]: the [k]-th instance reads
    the clock for the [(first + k)]-th time in the round. *)
Fixpoint draw_spawned (clock : nat -> R) (first : nat) (count : nat)
    (positions : list vec3) (w : World Camera) : World Camera :=
  match positions with
  | [] => w
  | position :: rest =>
      let model := [Translate position;
                    Rotate (clock first * 0.2) y_axis;
                    Scale (mkvec3 0.5 0.5 0.5)] in
      let w := call [setMat4_model model; glDrawElements count] w in
      draw_spawned clock (S first) count rest w
  end.

Definition pointLightPositions : list vec3 :=
  [mkvec3 0.7 0.2 2; mkvec3 2.3 (-3.3) (-4); mkvec3 (-4) 2 (-12); mkvec3 0 0 (-3)].

Definition draw_light_cubes (w : World Camera) : World Camera :=
  fold_left (fun w pos =>
               call [setMat4_model [Translate pos; Scale (mkvec3 0.2 0.2 0.2)];
                     glDrawArrays 36] w)
            pointLightPositions w.

(** One round of the render loop.  Left out are the calls that clear the
    window and bind buffers, vertex arrays and texture units, and the
    uniforms of the lights, of the material and of the view and projection:
    they read the camera and write nothing of the state kept here. *)
Definition frame (f : Frame) (l : Loop) : Loop :=
  let w := world l in
  let currentFrame := glfwGetTime f 0%nat in
  let w := set_timing (currentFrame - lastFrame w) currentFrame w in
  let w := processInput (keys f) w in
  let t := glfwGetTime f 1%nat in
  let n1 := morph_n1 t in
  let n2 := morph_n2 t in
  let m := generateSuperellipsoid_default (mesh l) 1 1 1 n1 n2 in
  let w := call [glBufferSubData GL_ARRAY_BUFFER_VBO (VertexData (vertices m));
                 glBufferSubData GL_ELEMENT_ARRAY_BUFFER_EBO (IndexData (indices m))] w in
  let w := call [glBindTexture (diffuseMap l)] w in
  let w := call [setMat4_model [Rotate (t * 0.5) y_axis];
                 glDrawElements (length (indices m))] w in
  let w := draw_spawned (glfwGetTime f) 2%nat (length (indices m))
                        (spawnedSuperellipsoids w) w in
  let w := draw_light_cubes w in
  let w := call [glfwSwapBuffers] w in
  let w := glfwPollEvents (events f) w in
  mkLoop w m (diffuseMap l).

(** [while (!glfwWindowShouldClose(window))], over the rounds the
    surroundings supply. *)
Fixpoint render_loop (frames : list Frame) (l : Loop) : Loop :=
  match frames with
  | [] => l
  | f :: rest =>
      if windowShouldClose (world l) then l else render_loop rest (frame f l)
  end.

(** *** main *)

Record Startup : Type := mkStartup {
  glfwCreateWindow_ok : bool;
  gladLoadGLLoader_ok : bool;
  getPath : string -> string;              (* FileSystem::getPath *)
  stbi_load : string -> option Image;
  texture_name : Z                         (* the name glGenTextures hands out *)
}.

(** How far [main] has got: it has returned with a status, or it is still
    in the render loop. *)
Inductive Session : Type :=
| Returned (status : Z) (w : World Camera)
| Rendering (l : Loop).

(** [main] up to the render loop.  Left out are the window hints, the
    callbacks' registration, the two shader programs and the buffers of the
    light cube. *)
Definition main_setup (env : Startup) (w : World Camera) : Z * World Camera + Loop :=
  if negb (glfwCreateWindow_ok env)
  then inl ((-1)%Z, print [OutStr "Failed to create GLFW window"; OutEndl] w)
  else if negb (gladLoadGLLoader_ok env)
  then inl ((-1)%Z, print [OutStr "Failed to initialize GLAD"; OutEndl] w)
  else
    let m := generateSuperellipsoid_default (mkMesh [] []) 1 1 1 1 1 in
    let w := call [glBufferData GL_ARRAY_BUFFER_VBO (VertexData (vertices m));
                   glBufferData GL_ELEMENT_ARRAY_BUFFER_EBO (IndexData (indices m))] w in
    let path := getPath env "resources/textures/Solid_yellow.png" in
    let '(diffuseMap, w) := loadTexture path (texture_name env) (stbi_load env path) w in
    let w := print [OutStr "Press E to summon superellipsoid "; OutEndl] w in
    inr (mkLoop w m diffuseMap).

Definition main (env : Startup) (frames : list Frame) (w : World Camera) : Session :=
  match main_setup env w with
  | inl (status, w) => Returned status w
  | inr l =>
      let l := render_loop frames l in
      if windowShouldClose (world l) then Returned 0 (world l) else Rendering l
  end.

(** *** Statements about runs *)

(** The positions the draw calls of the spawned instances translate to. *)
Definition translation (model : mat4) : option vec3 :=
  match model with
  | Translate p :: Rotate _ _ :: Scale _ :: [] => Some p
  | _ => None
  end.

Fixpoint visited (calls : list GLCall) : list vec3 :=
  match calls with
  | [] => []
  | setMat4_model model :: rest =>
      match translation model with
      | Some p => p :: visited rest
      | None => visited rest
      end
  | _ :: rest => visited rest
  end.

(** Where a spawn puts the instance: the camera position plus the camera
    front times 2, for the camera of [w]. *)
Definition spawn_position (w : World Camera) : vec3 :=
  vadd (CamPosition (camera w)) (vscale (CamFront (camera w)) 2).

(** [w'] has the registry and the latch of [w]. *)
Definition same_registry_and_latch (w w' : World Camera) : Prop :=
  spawnedSuperellipsoids w' = spawnedSuperellipsoids w /\
  e_pressed_last_frame w' = e_pressed_last_frame w.

(** The world in which [processInput] runs in the round [f] started from [l]. *)
Definition at_input (f : Frame) (l : Loop) : World Camera :=
  let currentFrame := glfwGetTime f 0%nat in
  set_timing (currentFrame - lastFrame (world l)) currentFrame (world l).

(** The OpenGL calls of a round, as lists. *)
Fixpoint spawned_calls (clock : nat -> R) (first : nat) (count : nat)
    (positions : list vec3) : list GLCall :=
  match positions with
  | [] => []
  | position :: rest =>
      setMat4_model [Translate position; Rotate (clock first * 0.2) y_axis;
                     Scale (mkvec3 0.5 0.5 0.5)]
      :: glDrawElements count
      :: spawned_calls clock (S first) count rest
  end.

Definition light_cube_calls : list GLCall :=
  flat_map (fun pos => [setMat4_model [Translate pos; Scale (mkvec3 0.2 0.2 0.2)];
                        glDrawArrays 36])
           pointLightPositions.

Definition event_calls (evs : list Event) : list GLCall :=
  flat_map (fun ev => match ev with
                      | FramebufferSize width height => [glViewport 0 0 width height]
                      | _ => []
                      end) evs.

Definition frame_calls (f : Frame) (l : Loop) : list GLCall :=
  let m := mesh (frame f l) in
  [glBufferSubData GL_ARRAY_BUFFER_VBO (VertexData (vertices m));
   glBufferSubData GL_ELEMENT_ARRAY_BUFFER_EBO (IndexData (indices m));
   glBindTexture (diffuseMap l);
   setMat4_model [Rotate (glfwGetTime f 1%nat * 0.5) y_axis];
   glDrawElements (length (indices m))]
  ++ spawned_calls (glfwGetTime f) 2 (length (indices m))
       (spawnedSuperellipsoids (processInput (keys f) (at_input f l)))
  ++ light_cube_calls
  ++ [glfwSwapBuffers]
  ++ event_calls (events f).

Definition is_glTexImage2D (c : GLCall) : bool :=
  match c with
  | glTexImage2D _ _ _ _ => true
  | _ => false
  end.

(** The globals as the program initialises them, for a camera [cam]
    constructed at [(0, 0, 3)]; [lastX] and [lastY] are half of the
    800 x 600 window. *)
Definition initial_world (cam : Camera) : World Camera :=
  mkWorld cam 400 300 true 0 0 [] false false [] [].

(** The morph parameters as the specification writes them. *)
Definition spec_n1 (t : R) : R := 0.2 + 1.8 * (0.5 + 0.5 * sin (1.2 * t)).
Definition spec_n2 (t : R) : R := 0.2 + 1.8 * (0.5 + 0.5 * cos (0.8 * t)).

End Program.

(** ** A sample session

    A camera at [(0, 0, 3)] looking down the negative z axis, the program's
    initial globals, key samples where only E may be down, and a start in
    which the window and the OpenGL loader succeed and no image decodes. *)

Definition sample_camera : FlyCamera := mkFlyCamera (mkvec3 0 0 3) (mkvec3 0 0 (-1)).

Definition sample_world : World FlyCamera := initial_world sample_camera.

Definition only_E (e : bool) : Keys := mkKeys false false false false false e.

(** The worlds after five successive calls of [processInput] that sample E
    as up, down, down, up, down. *)
Definition sample_w1 : World FlyCamera := processInput (only_E false) sample_world.
Definition sample_w2 : World FlyCamera := processInput (only_E true) sample_w1.
Definition sample_w3 : World FlyCamera := processInput (only_E true) sample_w2.
Definition sample_w4 : World FlyCamera := processInput (only_E false) sample_w3.
Definition sample_w5 : World FlyCamera := processInput (only_E true) sample_w4.

Definition sample_path : string := "resources/textures/Solid_yellow.png".

Definition sample_startup : Startup :=
  mkStartup true true (fun path => path) (fun _ => None) 1%Z.

(** ** Further notions for statements about the mesh *)

(** The index list read three entries at a time, as [GL_TRIANGLES] does. *)
Fixpoint triangles (ks : list Z) : list (Z * Z * Z) :=
  match ks with
  | k1 :: k2 :: k3 :: rest => (k1, k2, k3) :: triangles rest
  | _ => []
  end.

(** ** Further notions for statements about runs *)

Section RunNotions.

Context {Camera : Type} `{CameraClass Camera}.

Definition is_WindowClose (ev : Event) : bool :=
  match ev with
  | WindowClose => true
  | _ => false
  end.

(** Whether a round asks the loop to end: escape is down in [processInput]
    or the window is closed among the events. *)
Definition close_requested (f : Frame) : bool :=
  KEY_ESCAPE (keys f) || existsb is_WindowClose (events f).

(** The rounds the render loop makes of the rounds it is offered. *)
Fixpoint executed (frames : list Frame) (l : Loop) : list Frame :=
  match frames with
  | [] => []
  | f :: rest =>
      if windowShouldClose (world l) then [] else f :: executed rest (frame f l)
  end.

(** The number of samples that are down right after one that is up, the
    latch standing for the sample before the first. *)
Fixpoint rising_edges (latch : bool) (samples : list bool) : nat :=
  match samples with
  | [] => 0
  | s :: rest => (if s && negb latch then 1 else 0) + rising_edges s rest
  end.

(** The line printed for a spawn at [p]. *)
Definition spawn_report (p : vec3) : list Out :=
  [OutStr "Superellipsoid spawned at: ("; OutFloat (vx p); OutStr ", ";
   OutFloat (vy p); OutStr ", "; OutFloat (vz p); OutStr ")"; OutEndl].

(** The camera after the movement keys of one call of [processInput]. *)
Definition moved_camera (k : Keys) (dt : R) (cam : Camera) : Camera :=
  let cam := if KEY_W k then ProcessKeyboard FORWARD dt cam else cam in
  let cam := if KEY_S k then ProcessKeyboard BACKWARD dt cam else cam in
  let cam := if KEY_A k then ProcessKeyboard LEFT dt cam else cam in
  if KEY_D k then ProcessKeyboard RIGHT dt cam else cam.



(** The draw calls of a list of calls. *)
Definition is_draw (c : GLCall) : bool :=
  match c with
  | glDrawElements _ | glDrawArrays _ => true
  | _ => false
  end.

End RunNotions.

(** Rounds and a loop state for the sample session: a round at time [t] in
    which only the given keys are down and no event arrives. *)
Definition sample_round (t : R) (k : Keys) : Frame := mkFrame (fun _ => t) k [].

Definition escape_down : Keys := mkKeys true false false false false false.

Definition sample_loop : @Loop FlyCamera := mkLoop sample_world (mkMesh [] []) 1%Z.

(** A vertex of the mesh of a round at time 0. *)
Definition sample_round_vertex : Vertex :=
  make_vertex 1 1 1 (morph_n1 0) (morph_n2 0) 64 64 16 48.

(** * Properties *)

(** ** Loops and lists *)

Local Open Scope Z_scope.

Lemma length_zseq (n : nat) (i : Z) : length (zseq i n) = n.
Proof. revert i; induction n as [|n IH]; intros i; simpl; [reflexivity | now rewrite IH]. Qed.

Lemma in_zseq (n : nat) (i x : Z) : In x (zseq i n) <-> i <= x < i + Z.of_nat n.
Proof.
  revert i; induction n as [|n IH]; intros i; simpl.
  - lia.
  - rewrite IH. lia.
Qed.

Lemma nth_error_zseq (n : nat) (i : Z) (k : nat) :
  (k < n)%nat -> nth_error (zseq i n) k = Some (i + Z.of_nat k).
Proof.
  revert i k; induction n as [|n IH]; intros i k Hk; [lia|].
  destruct k as [|k]; simpl.
  - f_equal; lia.
  - rewrite IH by lia. f_equal; lia.
Qed.

(** A loop whose body only appends to the two containers appends, round
    after round, what the body appends. *)
Lemma for_loop_appends (ev : Z -> list Vertex) (ei : Z -> list Z)
    (body : Z -> Mesh -> Mesh) :
  (forall i m, body i m = mkMesh (vertices m ++ ev i) (indices m ++ ei i)) ->
  forall n i m,
    for_loop n i body m =
    mkMesh (vertices m ++ flat_map ev (zseq i n)) (indices m ++ flat_map ei (zseq i n)).
Proof.
  intros Hbody n; induction n as [|n IH]; intros i m; simpl.
  - rewrite !app_nil_r. now destruct m.
  - rewrite IH, Hbody; simpl. now rewrite <- !app_assoc.
Qed.

Lemma flat_map_nil {A B : Type} (l : list A) : flat_map (fun _ => @nil B) l = [].
Proof. induction l; simpl; auto. Qed.

(** ** What [generateSuperellipsoid] builds *)

Lemma flat_map_singleton {A B : Type} (f : A -> B) (l : list A) :
  flat_map (fun x => [f x]) l = map f l.
Proof. induction l as [|x l IH]; simpl; [reflexivity | now rewrite IH]. Qed.

Lemma vertex_loops_eq (a b c n1 n2 : R) (stacks slices : Z) (m : Mesh) :
  for_le stacks (fun i m =>
    for_le slices (fun j m =>
      push_vertex (make_vertex a b c n1 n2 stacks slices i j) m) m) m =
  mkMesh (vertices m ++ vertex_rows a b c n1 n2 stacks slices) (indices m).
Proof.
  unfold for_le at 1.
  rewrite (for_loop_appends
             (fun i => map (make_vertex a b c n1 n2 stacks slices i)
                           (zseq 0 (Z.to_nat (slices + 1))))
             (fun _ => [])).
  - now rewrite flat_map_nil, app_nil_r.
  - intros i m'. unfold for_le.
    rewrite (for_loop_appends
               (fun j => [make_vertex a b c n1 n2 stacks slices i j]) (fun _ => [])).
    + now rewrite flat_map_nil, flat_map_singleton.
    + intros j m''. unfold push_vertex. now rewrite app_nil_r.
Qed.

Lemma index_loops_eq (stacks slices : Z) (m : Mesh) :
  for_lt stacks (fun i m =>
    for_lt slices (fun j m => push_cell slices i j m) m) m =
  mkMesh (vertices m) (indices m ++ stored_indices stacks slices).
Proof.
  unfold for_lt at 1.
  rewrite (for_loop_appends
             (fun _ => [])
             (fun i => flat_map (stored_cell slices i) (zseq 0 (Z.to_nat slices)))).
  - now rewrite flat_map_nil, app_nil_r.
  - intros i m'. unfold for_lt.
    rewrite (for_loop_appends (fun _ => []) (stored_cell slices i)).
    + now rewrite flat_map_nil.
    + intros j m''. unfold push_cell, push_index, stored_cell; simpl.
      rewrite app_nil_r, <- !app_assoc. reflexivity.
Qed.

Lemma generateSuperellipsoid_eq (m : Mesh) (a b c n1 n2 : R) (stacks slices : Z) :
  generateSuperellipsoid m a b c n1 n2 stacks slices =
  mkMesh (vertex_rows a b c n1 n2 stacks slices) (stored_indices stacks slices).
Proof.
  unfold generateSuperellipsoid.
  rewrite vertex_loops_eq, index_loops_eq. reflexivity.
Qed.

(** ** Machine integers: a wrapped value differs from the exact one by a
    multiple of 2^32 *)

Lemma int_wrap_congr (z : Z) : exists q, int_wrap z = z + q * UINT_RANGE.
Proof.
  exists (- ((z + 2147483648) / UINT_RANGE)).
  unfold int_wrap, UINT_RANGE.
  pose proof (Z.div_mod (z + 2147483648) 4294967296). lia.
Qed.

Lemma int_wrap_in_range (z : Z) : - INT_MAX - 1 <= z <= INT_MAX -> int_wrap z = z.
Proof.
  unfold int_wrap, INT_MAX, UINT_RANGE. intros Hz.
  rewrite Z.mod_small by lia. lia.
Qed.

Lemma int_add_congr (x y x' y' : Z) :
  (exists q, x = x' + q * UINT_RANGE) -> (exists q, y = y' + q * UINT_RANGE) ->
  exists q, int_add x y = x' + y' + q * UINT_RANGE.
Proof.
  intros [qx ->] [qy ->]. unfold int_add.
  destruct (int_wrap_congr (x' + qx * UINT_RANGE + (y' + qy * UINT_RANGE))) as [q ->].
  exists (qx + qy + q). ring.
Qed.

Lemma int_mul_congr (x y x' y' : Z) :
  (exists q, x = x' + q * UINT_RANGE) -> (exists q, y = y' + q * UINT_RANGE) ->
  exists q, int_mul x y = x' * y' + q * UINT_RANGE.
Proof.
  intros [qx ->] [qy ->]. unfold int_mul.
  destruct (int_wrap_congr ((x' + qx * UINT_RANGE) * (y' + qy * UINT_RANGE))) as [q ->].
  exists (x' * qy + qx * y' + qx * qy * UINT_RANGE + q). ring.
Qed.

Lemma congr_refl (x : Z) : exists q, x = x + q * UINT_RANGE.
Proof. exists 0. ring. Qed.

Lemma to_uint_congr (x y : Z) :
  (exists q, x = y + q * UINT_RANGE) -> to_uint x = to_uint y.
Proof. intros [q ->]. unfold to_uint. apply Z_mod_plus_full. Qed.

Lemma to_uint_range (z : Z) : 0 <= to_uint z < UINT_RANGE.
Proof. unfold to_uint, UINT_RANGE. apply Z.mod_pos_bound. lia. Qed.

Lemma to_uint_small (z : Z) : 0 <= z < UINT_RANGE -> to_uint z = z.
Proof. intros H. unfold to_uint. now apply Z.mod_small. Qed.

Lemma to_uint_le (z : Z) : 0 <= z -> to_uint z <= z.
Proof. intros H. unfold to_uint, UINT_RANGE. apply Z.mod_le; lia. Qed.

Create HintDb wrap.
#[local] Hint Resolve congr_refl int_add_congr int_mul_congr : wrap.

(** The stored indices of a cell are the exact ones reduced modulo 2^32. *)
Lemma stored_cell_eq (slices i j : Z) :
  stored_cell slices i j = map to_uint (cell_triangles slices (i, j)).
Proof.
  unfold stored_cell, cell_triangles; cbn [map fst snd].
  assert (F : exists q, int_add (int_mul i (int_add slices 1)) j =
                        i * (slices + 1) + j + q * UINT_RANGE) by auto with wrap.
  assert (S : exists q, int_add (int_add (int_add (int_mul i (int_add slices 1)) j) slices) 1 =
                        i * (slices + 1) + j + slices + 1 + q * UINT_RANGE) by auto with wrap.
  repeat (f_equal; try (apply to_uint_congr; auto with wrap)).
Qed.

Lemma flat_map_map {A B C : Type} (f : A -> B) (g : B -> list C) (l : list A) :
  flat_map g (map f l) = flat_map (fun x => g (f x)) l.
Proof. induction l as [|x l IH]; simpl; [reflexivity | now rewrite IH]. Qed.

Lemma map_flat_map {A B C : Type} (f : B -> C) (g : A -> list B) (l : list A) :
  map f (flat_map g l) = flat_map (fun x => map f (g x)) l.
Proof. induction l as [|x l IH]; simpl; [reflexivity | now rewrite map_app, IH]. Qed.

Lemma flat_map_flat_map {A B C : Type} (f : A -> list B) (g : B -> list C) (l : list A) :
  flat_map g (flat_map f l) = flat_map (fun x => flat_map g (f x)) l.
Proof. induction l as [|x l IH]; simpl; [reflexivity | now rewrite flat_map_app, IH]. Qed.

Lemma stored_indices_eq (stacks slices : Z) :
  stored_indices stacks slices = map to_uint (spec_indices stacks slices).
Proof.
  unfold stored_indices, spec_indices, grid_cells.
  rewrite flat_map_flat_map, map_flat_map.
  apply flat_map_ext; intros i.
  rewrite flat_map_map, map_flat_map.
  apply flat_map_ext; intros j. apply stored_cell_eq.
Qed.

Lemma in_grid_cells (stacks slices i j : Z) :
  In (i, j) (grid_cells stacks slices) <-> (0 <= i < stacks /\ 0 <= j < slices).
Proof.
  unfold grid_cells. rewrite in_flat_map. split.
  - intros [i' [Hi Hj]]. rewrite in_map_iff in Hj. destruct Hj as [j' [E Hj]].
    inversion E; subst. rewrite in_zseq in Hi, Hj. lia.
  - intros [Hi Hj]. exists i. split.
    + rewrite in_zseq. lia.
    + apply in_map. rewrite in_zseq. lia.
Qed.

(** Every exact index of a cell names a vertex of the grid. *)
Lemma cell_triangles_bound (stacks slices i j k : Z) :
  0 <= i < stacks -> 0 <= j < slices -> In k (cell_triangles slices (i, j)) ->
  0 <= k < (stacks + 1) * (slices + 1).
Proof.
  intros Hi Hj Hk. unfold cell_triangles in Hk; cbn [fst snd In] in Hk.
  assert (0 <= i * (slices + 1)) by nia.
  assert (i * (slices + 1) <= (stacks - 1) * (slices + 1)) by nia.
  assert ((stacks + 1) * (slices + 1) = (stacks - 1) * (slices + 1) + 2 * slices + 2) by ring.
  intuition (subst; lia).
Qed.

Lemma spec_indices_bound (stacks slices k : Z) :
  In k (spec_indices stacks slices) -> 0 <= k < (stacks + 1) * (slices + 1).
Proof.
  unfold spec_indices. rewrite in_flat_map. intros [[i j] [Hc Hk]].
  apply in_grid_cells in Hc. destruct Hc. eapply cell_triangles_bound; eauto.
Qed.

Lemma length_vertex_rows (a b c n1 n2 : R) (stacks slices : Z) :
  length (vertex_rows a b c n1 n2 stacks slices) =
  (Z.to_nat (stacks + 1) * Z.to_nat (slices + 1))%nat.
Proof.
  unfold vertex_rows.
  rewrite flat_map_constant_length with (c := Z.to_nat (slices + 1));
    [now rewrite length_zseq|].
  intros i _. now rewrite length_map, length_zseq.
Qed.

Lemma length_stored_indices (stacks slices : Z) :
  length (stored_indices stacks slices) = (Z.to_nat stacks * (Z.to_nat slices * 6))%nat.
Proof.
  unfold stored_indices.
  rewrite flat_map_constant_length with (c := (Z.to_nat slices * 6)%nat);
    [now rewrite length_zseq|].
  intros i _.
  rewrite flat_map_constant_length with (c := 6%nat);
    [now rewrite length_zseq|].
  intros j _. reflexivity.
Qed.

(** ** The generator on small inputs *)

Example indices_of_a_2_by_3_grid :
  indices (generateSuperellipsoid (mkMesh [] [9; 9]) 1 1 1 1.1 2 2 3) =
  [0; 4; 1; 4; 5; 1;   1; 5; 2; 5; 6; 2;   2; 6; 3; 6; 7; 3;
   4; 8; 5; 8; 9; 5;   5; 9; 6; 9; 10; 6;  6; 10; 7; 10; 11; 7].
Proof. vm_compute. reflexivity. Qed.

Example twelve_vertices_of_a_2_by_3_grid :
  length (vertices (generateSuperellipsoid (mkMesh [] [9; 9]) 1 1 1 1.1 2 2 3)) = 12%nat.
Proof.
  rewrite generateSuperellipsoid_eq; cbn [vertices].
  rewrite length_vertex_rows. reflexivity.
Qed.

Example no_rounds_for_a_negative_bound :
  generateSuperellipsoid (mkMesh [] [9; 9]) 1 1 1 1.1 2 (-4) 3 = mkMesh [] [].
Proof. reflexivity. Qed.

(** An [int] one past [INT_MAX] wraps; its [unsigned int] value does not. *)
Example int_wraps_but_uint_keeps :
  int_add INT_MAX 1 = - INT_MAX - 1 /\ to_uint (int_add INT_MAX 1) = INT_MAX + 1.
Proof. split; reflexivity. Qed.

(** ** The generator: sizes, indices, determinism *)

(** C1.  For [stacks >= 1] and [slices >= 1] and any shape parameters,
    [generateSuperellipsoid] returns exactly [(stacks+1)*(slices+1)] vertices
    and exactly [6*stacks*slices] indices, every index is below the vertex
    count, and the two lengths are the same for any other shape parameters
    (and any other prior contents of the containers). *)
Theorem generate_counts_and_index_range :
  forall (m : Mesh) (a b c n1 n2 : R) (stacks slices : Z),
    1 <= stacks -> 1 <= slices ->
    let g := generateSuperellipsoid m a b c n1 n2 stacks slices in
    Z.of_nat (length (vertices g)) = (stacks + 1) * (slices + 1) /\
    Z.of_nat (length (indices g)) = 6 * stacks * slices /\
    Forall (fun k => 0 <= k < Z.of_nat (length (vertices g))) (indices g) /\
    (forall (m' : Mesh) (a' b' c' n1' n2' : R),
        let g' := generateSuperellipsoid m' a' b' c' n1' n2' stacks slices in
        length (vertices g') = length (vertices g) /\
        length (indices g') = length (indices g)).
Proof.
  intros m a b c n1 n2 stacks slices Hst Hsl g.
  assert (Hv : Z.of_nat (length (vertices g)) = (stacks + 1) * (slices + 1)).
  { subst g. rewrite generateSuperellipsoid_eq; cbn [vertices].
    rewrite length_vertex_rows. lia. }
  split; [exact Hv|]. split; [|split].
  - subst g. rewrite generateSuperellipsoid_eq; cbn [indices].
    rewrite length_stored_indices. lia.
  - rewrite Hv. subst g. rewrite generateSuperellipsoid_eq; cbn [indices].
    rewrite stored_indices_eq. apply Forall_forall. intros k Hk.
    apply in_map_iff in Hk. destruct Hk as [k' [<- Hk']].
    apply spec_indices_bound in Hk'.
    pose proof (to_uint_range k'). pose proof (to_uint_le k'). lia.
  - intros m' a' b' c' n1' n2' g'. subst g g'.
    rewrite !generateSuperellipsoid_eq; cbn [vertices indices].
    now rewrite !length_vertex_rows.
Qed.

Lemma generate_counts_and_index_range_witness :
  Z.of_nat (length (vertices (generateSuperellipsoid (mkMesh [] [7]) 1 1 1 1.1 2 64 64))) = 4225 /\
  Z.of_nat (length (indices (generateSuperellipsoid (mkMesh [] [7]) 1 1 1 1.1 2 64 64))) = 24576 /\
  Forall (fun k => 0 <= k < Z.of_nat (length (vertices
             (generateSuperellipsoid (mkMesh [] [7]) 1 1 1 1.1 2 64 64))))
         (indices (generateSuperellipsoid (mkMesh [] [7]) 1 1 1 1.1 2 64 64)) /\
  (forall (m' : Mesh) (a' b' c' n1' n2' : R),
      length (vertices (generateSuperellipsoid m' a' b' c' n1' n2' 64 64)) =
        length (vertices (generateSuperellipsoid (mkMesh [] [7]) 1 1 1 1.1 2 64 64)) /\
      length (indices (generateSuperellipsoid m' a' b' c' n1' n2' 64 64)) =
        length (indices (generateSuperellipsoid (mkMesh [] [7]) 1 1 1 1.1 2 64 64))).
Proof.
  apply (generate_counts_and_index_range (mkMesh [] [7]) 1 1 1 1.1 2 64 64); lia.
Defined.

(** C3.  For [stacks >= 1] and [slices >= 1] the index list is the
    concatenation, over the cells [(i, j)] in row-major order, of
    [first, second, first+1, second, second+1, first+1] with
    [first = i*(slices+1)+j] and [second = first+slices+1], each stored as a
    32-bit unsigned value; for a grid of at most 2^32 vertices the stored
    values are these numbers themselves. *)
Theorem generate_indices_are_cell_triangles :
  forall (m : Mesh) (a b c n1 n2 : R) (stacks slices : Z),
    1 <= stacks -> 1 <= slices ->
    indices (generateSuperellipsoid m a b c n1 n2 stacks slices) =
      map to_uint (spec_indices stacks slices) /\
    ((stacks + 1) * (slices + 1) <= UINT_RANGE ->
     indices (generateSuperellipsoid m a b c n1 n2 stacks slices) =
       spec_indices stacks slices).
Proof.
  intros m a b c n1 n2 stacks slices Hst Hsl.
  rewrite generateSuperellipsoid_eq; cbn [indices]. rewrite stored_indices_eq.
  split; [reflexivity|]. intros Hfit.
  rewrite <- (map_id (spec_indices stacks slices)) at 2.
  apply map_ext_in. intros k Hk. apply spec_indices_bound in Hk.
  apply to_uint_small. lia.
Qed.

Lemma generate_indices_are_cell_triangles_witness :
  indices (generateSuperellipsoid (mkMesh [] [7]) 1 1 1 1.1 2 64 64) =
    map to_uint (spec_indices 64 64) /\
  indices (generateSuperellipsoid (mkMesh [] [7]) 1 1 1 1.1 2 64 64) =
    spec_indices 64 64.
Proof.
  destruct (generate_indices_are_cell_triangles (mkMesh [] [7]) 1 1 1 1.1 2 64 64)
    as [Hstored Hexact]; [lia | lia |].
  split; [exact Hstored | apply Hexact; unfold UINT_RANGE; lia].
Defined.

(** C8.  The result of [generateSuperellipsoid] is a function of its
    arguments alone: the prior contents of the two containers have no effect
    on it, so two calls with equal arguments return equal arrays and a call
    leaves nothing behind for the next one. *)
Theorem generate_deterministic :
  forall (m m' : Mesh) (a b c n1 n2 : R) (stacks slices : Z),
    generateSuperellipsoid m a b c n1 n2 stacks slices =
    generateSuperellipsoid m' a b c n1 n2 stacks slices.
Proof. intros. now rewrite !generateSuperellipsoid_eq. Qed.

(** C10.  The index list depends on [stacks] and [slices] only: two calls with
    the same [stacks] and [slices] return equal index lists whatever the
    shape parameters (and the prior contents of the containers) are. *)
Theorem generate_indices_depend_on_resolution_only :
  forall (m m' : Mesh) (a b c n1 n2 a' b' c' n1' n2' : R) (stacks slices : Z),
    1 <= stacks -> 1 <= slices ->
    indices (generateSuperellipsoid m a b c n1 n2 stacks slices) =
    indices (generateSuperellipsoid m' a' b' c' n1' n2' stacks slices).
Proof. intros. now rewrite !generateSuperellipsoid_eq. Qed.

Lemma generate_indices_depend_on_resolution_only_witness :
  indices (generateSuperellipsoid (mkMesh [] []) 1 1 1 1 1 64 64) =
  indices (generateSuperellipsoid (mkMesh [] [7]) 1 1 1 1.1 2 64 64).
Proof.
  apply (generate_indices_depend_on_resolution_only
           (mkMesh [] []) (mkMesh [] [7]) 1 1 1 1 1 1 1 1 1.1 2 64 64); lia.
Defined.

(** ** The generator: the vertex of a grid point *)

Lemma nth_error_flat_map_rows {A B : Type} (f : A -> list B) (k : nat) :
  (forall y, length (f y) = k) ->
  forall (l : list A) (p q : nat) (x : A),
    nth_error l p = Some x -> (q < k)%nat ->
    nth_error (flat_map f l) (p * k + q) = nth_error (f x) q.
Proof.
  intros Hlen l; induction l as [|y l IH]; intros p q x Hp Hq.
  - destruct p; discriminate.
  - destruct p as [|p]; simpl in Hp |- *.
    + inversion Hp; subst. apply nth_error_app1. rewrite Hlen. exact Hq.
    + rewrite nth_error_app2 by (rewrite Hlen; lia).
      rewrite Hlen. replace (k + p * k + q - k)%nat with (p * k + q)%nat by lia.
      now apply IH.
Qed.

Lemma nth_error_vertex_rows (a b c n1 n2 : R) (stacks slices i j : Z) :
  0 <= i <= stacks -> 0 <= j <= slices ->
  nth_error (vertex_rows a b c n1 n2 stacks slices) (Z.to_nat (i * (slices + 1) + j)) =
  Some (make_vertex a b c n1 n2 stacks slices i j).
Proof.
  intros Hi Hj. unfold vertex_rows.
  replace (Z.to_nat (i * (slices + 1) + j))
    with (Z.to_nat i * Z.to_nat (slices + 1) + Z.to_nat j)%nat by nia.
  rewrite nth_error_flat_map_rows with (x := i).
  - rewrite nth_error_map, nth_error_zseq by lia. simpl. do 2 f_equal. lia.
  - intros y. now rewrite length_map, length_zseq.
  - rewrite nth_error_zseq by lia. f_equal. lia.
  - lia.
Qed.

Local Open Scope R_scope.

Lemma make_vertex_spec (a b c n1 n2 : R) (stacks slices i j : Z) :
  make_vertex a b c n1 n2 stacks slices i j = spec_vertex sgn a b c n1 n2 stacks slices i j.
Proof.
  unfold make_vertex, spec_vertex, spec_normal, spec_position, spec_u, spec_v,
    sgnpow, powe, M_PI; cbn [vx vy vz].
  replace (IZR j / IZR slices * 2 * PI) with (IZR j / IZR slices * (2 * PI))
    by (unfold Rdiv; ring).
  replace (a ^ 2) with (a * a) by ring.
  replace (b ^ 2) with (b * b) by ring.
  replace (c ^ 2) with (c * c) by ring.
  reflexivity.
Qed.

(** With a positive exponent the lambda [sgn], which takes 0 to 1, and the
    sign function, which takes 0 to 0, give the same signed power. *)
Lemma sgnpow_sgn_sign (base e : R) : 0 < e -> sgnpow sgn base e = sgnpow sign base e.
Proof.
  intros He. unfold sgnpow, sgn, sign.
  destruct (Rlt_dec base 0) as [Hneg|Hpos]; [reflexivity|].
  destruct (Req_dec_T base 0) as [Hz|Hnz]; [|reflexivity].
  subst base. rewrite Rabs_R0. unfold std_pow.
  destruct (Req_dec_T 0 0) as [_|Hne]; [|now elim Hne].
  destruct (Req_dec_T e 0) as [He0|_]; [lra | ring].
Qed.

(** C2.  For [stacks, slices >= 1] the vertex pushed at grid position
    [(i, j)], [0 <= i <= stacks], [0 <= j <= slices], has the position
    [(a sgnpow(cos u, n1) sgnpow(cos v, n2), b sgnpow(cos u, n1) sgnpow(sin v, n2),
    c sgnpow(sin u, n1))] for [u = -pi/2 + (i/stacks) pi] and
    [v = -pi + (j/slices) 2 pi], the normal [normalize(x/a^2, y/b^2, z/c^2)]
    and the texture coordinate [(j/slices, i/stacks)], where
    [sgnpow(base, e) = sgn(base) |base|^e] with the sign taken by the lambda
    [sgn]; for positive exponents [n1], [n2] the same holds with the
    mathematical sign function. *)
Theorem generate_vertex_at_grid_point :
  forall (m : Mesh) (a b c n1 n2 : R) (stacks slices i j : Z),
    (1 <= stacks)%Z -> (1 <= slices)%Z ->
    (0 <= i <= stacks)%Z -> (0 <= j <= slices)%Z ->
    vertex_at (generateSuperellipsoid m a b c n1 n2 stacks slices) slices i j =
      Some (spec_vertex sgn a b c n1 n2 stacks slices i j) /\
    (0 < n1 -> 0 < n2 ->
     vertex_at (generateSuperellipsoid m a b c n1 n2 stacks slices) slices i j =
       Some (spec_vertex sign a b c n1 n2 stacks slices i j)).
Proof.
  intros m a b c n1 n2 stacks slices i j Hst Hsl Hi Hj.
  assert (Hat : vertex_at (generateSuperellipsoid m a b c n1 n2 stacks slices) slices i j =
                Some (spec_vertex sgn a b c n1 n2 stacks slices i j)).
  { unfold vertex_at. rewrite generateSuperellipsoid_eq; cbn [vertices].
    rewrite nth_error_vertex_rows by assumption. now rewrite make_vertex_spec. }
  split; [exact Hat|]. intros H1 H2. rewrite Hat. f_equal.
  unfold spec_vertex, spec_position.
  now rewrite !(sgnpow_sgn_sign _ n1 H1), !(sgnpow_sgn_sign _ n2 H2).
Qed.

Lemma generate_vertex_at_grid_point_witness :
  vertex_at (generateSuperellipsoid (mkMesh [] []) 1 1 1 1.1 2 64 64) 64 0 32 =
    Some (spec_vertex sgn 1 1 1 1.1 2 64 64 0 32) /\
  vertex_at (generateSuperellipsoid (mkMesh [] []) 1 1 1 1.1 2 64 64) 64 0 32 =
    Some (spec_vertex sign 1 1 1 1.1 2 64 64 0 32).
Proof.
  destruct (generate_vertex_at_grid_point (mkMesh [] []) 1 1 1 1.1 2 64 64 0 32)
    as [Hsgn Hsign]; [lia | lia | lia | lia |].
  split; [exact Hsgn | apply Hsign; lra].
Defined.

(** ** The generator: the unit sphere *)

Lemma powe_1 (x : R) : powe x 1 = x.
Proof.
  unfold powe, sgn, std_pow.
  destruct (Rlt_dec x 0) as [Hneg|Hpos].
  - rewrite Rabs_left by assumption.
    destruct (Req_dec_T (- x) 0) as [Hz|_]; [lra|].
    rewrite Rpower_1 by lra. ring.
  - rewrite Rabs_right by lra.
    destruct (Req_dec_T x 0) as [Hz|Hnz].
    + destruct (Req_dec_T 1 0) as [H10|_]; lra.
    + rewrite Rpower_1 by lra. ring.
Qed.

Lemma sphere_point_norm (u v : R) :
  dot (mkvec3 (1 * cos u * cos v) (1 * cos u * sin v) (1 * sin u))
      (mkvec3 (1 * cos u * cos v) (1 * cos u * sin v) (1 * sin u)) = 1.
Proof.
  unfold dot; cbn [vx vy vz].
  pose proof (sin2_cos2 u) as Hu. pose proof (sin2_cos2 v) as Hv.
  unfold Rsqr in Hu, Hv.
  replace (1 * cos u * cos v * (1 * cos u * cos v) +
           1 * cos u * sin v * (1 * cos u * sin v) + 1 * sin u * (1 * sin u))
    with (cos u * cos u * (sin v * sin v + cos v * cos v) + sin u * sin u) by ring.
  rewrite Hv. lra.
Qed.

(** C4.  For [stacks, slices >= 1], with [a = b = c = 1] and [n1 = n2 = 1]
    every generated vertex position is at distance exactly 1 from the
    origin. *)
Theorem generate_unit_sphere :
  forall (m : Mesh) (stacks slices : Z) (vtx : Vertex),
    (1 <= stacks)%Z -> (1 <= slices)%Z ->
    In vtx (vertices (generateSuperellipsoid m 1 1 1 1 1 stacks slices)) ->
    vlength (Position vtx) = 1.
Proof.
  intros m stacks slices vtx _ _ Hin.
  rewrite generateSuperellipsoid_eq in Hin; cbn [vertices] in Hin.
  unfold vertex_rows in Hin. apply in_flat_map in Hin. destruct Hin as [i [_ Hrow]].
  apply in_map_iff in Hrow. destruct Hrow as [j [<- _]].
  unfold make_vertex, vlength; cbn [Position].
  rewrite !powe_1, sphere_point_norm. apply sqrt_1.
Qed.

Lemma generate_unit_sphere_witness :
  vlength (Position (make_vertex 1 1 1 1 1 64 64 16 48)) = 1.
Proof.
  apply (generate_unit_sphere (mkMesh [] [7%Z]) 64 64); [lia | lia |].
  apply nth_error_In with (n := Z.to_nat (16 * (64 + 1) + 48)).
  rewrite generateSuperellipsoid_eq; cbn [vertices].
  apply nth_error_vertex_rows; lia.
Defined.

(** ** The morph parameters *)

Lemma morph_n1_range (t : R) : 0.2 <= morph_n1 t <= 2.
Proof. unfold morph_n1. pose proof (SIN_bound (t * 1.2)). lra. Qed.

Lemma morph_n2_range (t : R) : 0.2 <= morph_n2 t <= 2.
Proof. unfold morph_n2. pose proof (COS_bound (t * 0.8)). lra. Qed.

Lemma morph_n1_continuous : continuity morph_n1.
Proof. unfold morph_n1. reg. Qed.

Lemma morph_n2_continuous : continuity morph_n2.
Proof. unfold morph_n2. reg. Qed.

Lemma frame_mesh {Camera : Type} `{CameraClass Camera} (f : Frame) (l : Loop) :
  mesh (frame f l) =
  generateSuperellipsoid (mesh l) 1 1 1
    (morph_n1 (glfwGetTime f 1%nat)) (morph_n2 (glfwGetTime f 1%nat)) 64 64.
Proof. reflexivity. Qed.

(** C6.  The morph parameters the frame loop hands to the generator are
    [n1(t) = 0.2 + 1.8*(0.5 + 0.5*sin(1.2*t))] and
    [n2(t) = 0.2 + 1.8*(0.5 + 0.5*cos(0.8*t))] of the time [t] read in that
    round; both stay in [[0.2, 2.0]] for every real [t], both are continuous,
    and at [t = 0] they are 1.1 and 2.0. *)
Theorem morph_parameters_bounded_and_continuous :
  (forall (Camera : Type) (cam : CameraClass Camera) (f : Frame) (l : Loop),
      mesh (frame f l) =
      generateSuperellipsoid (mesh l) 1 1 1
        (spec_n1 (glfwGetTime f 1%nat)) (spec_n2 (glfwGetTime f 1%nat)) 64 64) /\
  (forall t : R, morph_n1 t = spec_n1 t /\ morph_n2 t = spec_n2 t) /\
  (forall t : R, 0.2 <= spec_n1 t <= 2.0 /\ 0.2 <= spec_n2 t <= 2.0) /\
  continuity spec_n1 /\ continuity spec_n2 /\
  spec_n1 0 = 1.1 /\ spec_n2 0 = 2.0.
Proof.
  assert (E1 : forall t, morph_n1 t = spec_n1 t).
  { intros t. unfold morph_n1, spec_n1. rewrite (Rmult_comm t 1.2). ring. }
  assert (E2 : forall t, morph_n2 t = spec_n2 t).
  { intros t. unfold morph_n2, spec_n2. rewrite (Rmult_comm t 0.8). ring. }
  split; [|split; [|split; [|split; [|split; [|split]]]]].
  - intros Camera cam f l. rewrite frame_mesh, E1, E2. reflexivity.
  - intros t. split; [apply E1 | apply E2].
  - intros t. rewrite <- E1, <- E2.
    pose proof (morph_n1_range t). pose proof (morph_n2_range t). lra.
  - unfold spec_n1. reg.
  - unfold spec_n2. reg.
  - rewrite <- E1. unfold morph_n1. rewrite Rmult_0_l, sin_0. lra.
  - rewrite <- E2. unfold morph_n2. rewrite Rmult_0_l, cos_0. lra.
Qed.

(** ** The spawn registry and its latch *)

Section SceneProperties.

Context {Camera : Type} `{CameraClass Camera}.

Lemma processInput_latch (k : Keys) (w : World Camera) :
  e_pressed_last_frame (processInput k w) = KEY_E k.
Proof. reflexivity. Qed.

Lemma processInput_spawned (k : Keys) (w : World Camera) :
  spawnedSuperellipsoids (processInput k w) =
  spawnedSuperellipsoids w ++
  (if KEY_E k && negb (e_pressed_last_frame w)
   then [spawn_position (processInput k w)] else []).
Proof.
  destruct w as [cam lx ly fm dt lf reg latch close out calls].
  destruct k as [esc kw ks ka kd ke].
  destruct ke, latch; cbn [KEY_E andb negb];
    destruct esc, kw, ks, ka, kd; cbn; now rewrite ?app_nil_r.
Qed.

Lemma processInput_gl (k : Keys) (w : World Camera) :
  gl (processInput k w) = gl w.
Proof.
  destruct w as [cam lx ly fm dt lf reg latch close out calls].
  destruct k as [esc kw ks ka kd ke].
  destruct esc, kw, ks, ka, kd, ke, latch; reflexivity.
Qed.

(** Without a movement key the camera of a call is the one it starts with. *)
Lemma processInput_camera (k : Keys) (w : World Camera) :
  KEY_W k = false -> KEY_S k = false -> KEY_A k = false -> KEY_D k = false ->
  camera (processInput k w) = camera w.
Proof.
  destruct w as [cam lx ly fm dt lf reg latch close out calls].
  destruct k as [esc kw ks ka kd ke]; cbn [KEY_W KEY_S KEY_A KEY_D].
  intros -> -> -> ->. destruct esc, ke, latch; reflexivity.
Qed.

(** C5.  Five calls of [processInput] that sample the E key as
    [false, true, true, false, true], the first with the latch released,
    and anything in between that leaves registry and latch alone, spawn
    exactly twice, in the 2nd and in the 5th call, each time appending one
    instance at the camera position plus the camera front times 2.0 of
    that call; every call sets the latch to the sampled state. *)
Theorem spawn_on_rising_edges :
  forall (k1 k2 k3 k4 k5 : Keys) (w0 w1 w2 w3 w4 : World Camera),
    e_pressed_last_frame w0 = false ->
    KEY_E k1 = false -> KEY_E k2 = true -> KEY_E k3 = true ->
    KEY_E k4 = false -> KEY_E k5 = true ->
    same_registry_and_latch (processInput k1 w0) w1 ->
    same_registry_and_latch (processInput k2 w1) w2 ->
    same_registry_and_latch (processInput k3 w2) w3 ->
    same_registry_and_latch (processInput k4 w3) w4 ->
    let r := spawnedSuperellipsoids w0 in
    let p2 := spawn_position (processInput k2 w1) in
    let p5 := spawn_position (processInput k5 w4) in
    spawnedSuperellipsoids (processInput k1 w0) = r /\
    spawnedSuperellipsoids (processInput k2 w1) = r ++ [p2] /\
    spawnedSuperellipsoids (processInput k3 w2) = r ++ [p2] /\
    spawnedSuperellipsoids (processInput k4 w3) = r ++ [p2] /\
    spawnedSuperellipsoids (processInput k5 w4) = r ++ [p2; p5] /\
    (forall (k : Keys) (w : World Camera),
        e_pressed_last_frame (processInput k w) = KEY_E k).
Proof.
  intros k1 k2 k3 k4 k5 w0 w1 w2 w3 w4 L0 E1 E2 E3 E4 E5
    [R1 L1] [R2 L2] [R3 L3] [R4 L4] r p2 p5.
  rewrite processInput_latch in L1, L2, L3, L4.
  assert (S1 : spawnedSuperellipsoids (processInput k1 w0) = r).
  { rewrite processInput_spawned, E1. cbn. now rewrite app_nil_r. }
  assert (S2 : spawnedSuperellipsoids (processInput k2 w1) = r ++ [p2]).
  { rewrite processInput_spawned, E2, L1, E1, R1, S1. reflexivity. }
  assert (S3 : spawnedSuperellipsoids (processInput k3 w2) = r ++ [p2]).
  { rewrite processInput_spawned, E3, L2, E2, R2, S2. cbn. now rewrite app_nil_r. }
  assert (S4 : spawnedSuperellipsoids (processInput k4 w3) = r ++ [p2]).
  { rewrite processInput_spawned, E4, R3, S3. cbn. now rewrite app_nil_r. }
  repeat split; try assumption.
  rewrite processInput_spawned, E5, L4, E4, R4, S4. cbn.
  now rewrite <- app_assoc.
Qed.

(** *** The calls and the registry of a round *)

Lemma call_nil (w : World Camera) : call [] w = w.
Proof. destruct w; unfold call; cbn. now rewrite app_nil_r. Qed.

Lemma call_call (c1 c2 : list GLCall) (w : World Camera) :
  call c2 (call c1 w) = call (c1 ++ c2) w.
Proof. destruct w; unfold call; cbn. now rewrite app_assoc. Qed.

Lemma draw_spawned_eq (clock : nat -> R) (count : nat) (positions : list vec3) :
  forall (first : nat) (w : World Camera),
    draw_spawned clock first count positions w =
    call (spawned_calls clock first count positions) w.
Proof.
  induction positions as [|p rest IH]; intros first w; cbn [draw_spawned spawned_calls].
  - now rewrite call_nil.
  - rewrite IH, call_call. reflexivity.
Qed.

Lemma draw_light_cubes_eq (w : World Camera) :
  draw_light_cubes w = call light_cube_calls w.
Proof.
  unfold draw_light_cubes, light_cube_calls, pointLightPositions.
  cbn [fold_left flat_map]. rewrite !call_call. reflexivity.
Qed.

Lemma deliver_eq (ev : Event) (w : World Camera) :
  gl (deliver ev w) = gl w ++ event_calls [ev] /\
  spawnedSuperellipsoids (deliver ev w) = spawnedSuperellipsoids w /\
  e_pressed_last_frame (deliver ev w) = e_pressed_last_frame w.
Proof.
  destruct w as [cam lx ly fm dt lf reg latch close out calls].
  destruct ev; cbn; rewrite ?app_nil_r; try (repeat split; reflexivity).
  destruct fm; cbn; rewrite ?app_nil_r; repeat split; reflexivity.
Qed.

Lemma glfwPollEvents_eq (evs : list Event) :
  forall w : World Camera,
    gl (glfwPollEvents evs w) = gl w ++ event_calls evs /\
    spawnedSuperellipsoids (glfwPollEvents evs w) = spawnedSuperellipsoids w /\
    e_pressed_last_frame (glfwPollEvents evs w) = e_pressed_last_frame w.
Proof.
  unfold glfwPollEvents.
  induction evs as [|ev evs IH]; intros w; cbn [fold_left].
  - cbn. now rewrite app_nil_r.
  - destruct (IH (deliver ev w)) as [G [R L]].
    destruct (deliver_eq ev w) as [G' [R' L']].
    rewrite G, R, L, G', R', L'. repeat split.
    rewrite <- app_assoc. f_equal. unfold event_calls. cbn [flat_map].
    now rewrite app_nil_r.
Qed.

(** The world of a round before its events are delivered. *)
Lemma frame_world (f : Frame) (l : Loop) :
  world (frame f l) =
  glfwPollEvents (events f)
    (call ([glBufferSubData GL_ARRAY_BUFFER_VBO (VertexData (vertices (mesh (frame f l))));
            glBufferSubData GL_ELEMENT_ARRAY_BUFFER_EBO
              (IndexData (indices (mesh (frame f l))));
            glBindTexture (diffuseMap l);
            setMat4_model [Rotate (glfwGetTime f 1%nat * 0.5) y_axis];
            glDrawElements (length (indices (mesh (frame f l))))]
           ++ spawned_calls (glfwGetTime f) 2 (length (indices (mesh (frame f l))))
                (spawnedSuperellipsoids (processInput (keys f) (at_input f l)))
           ++ light_cube_calls ++ [glfwSwapBuffers])
       (processInput (keys f) (at_input f l))).
Proof.
  unfold frame; cbn [world mesh].
  rewrite draw_spawned_eq, draw_light_cubes_eq, !call_call.
  reflexivity.
Qed.

Lemma frame_gl (f : Frame) (l : Loop) :
  gl (world (frame f l)) = gl (world l) ++ frame_calls f l.
Proof.
  rewrite frame_world.
  destruct (glfwPollEvents_eq (events f)
              (call ([glBufferSubData GL_ARRAY_BUFFER_VBO
                        (VertexData (vertices (mesh (frame f l))));
                      glBufferSubData GL_ELEMENT_ARRAY_BUFFER_EBO
                        (IndexData (indices (mesh (frame f l))));
                      glBindTexture (diffuseMap l);
                      setMat4_model [Rotate (glfwGetTime f 1%nat * 0.5) y_axis];
                      glDrawElements (length (indices (mesh (frame f l))))]
                     ++ spawned_calls (glfwGetTime f) 2
                          (length (indices (mesh (frame f l))))
                          (spawnedSuperellipsoids (processInput (keys f) (at_input f l)))
                     ++ light_cube_calls ++ [glfwSwapBuffers])
                 (processInput (keys f) (at_input f l)))) as [G _].
  rewrite G. unfold call at 1; cbn [gl].
  rewrite processInput_gl. unfold at_input at 1, set_timing; cbn [gl].
  unfold frame_calls. rewrite <- !app_assoc. reflexivity.
Qed.

Lemma frame_spawned (f : Frame) (l : Loop) :
  spawnedSuperellipsoids (world (frame f l)) =
  spawnedSuperellipsoids (processInput (keys f) (at_input f l)).
Proof.
  rewrite frame_world.
  match goal with |- context [glfwPollEvents ?e ?w] =>
    destruct (glfwPollEvents_eq e w) as [_ [R _]]; rewrite R end.
  reflexivity.
Qed.

Lemma frame_latch (f : Frame) (l : Loop) :
  e_pressed_last_frame (world (frame f l)) = KEY_E (keys f).
Proof.
  rewrite frame_world.
  match goal with |- context [glfwPollEvents ?e ?w] =>
    destruct (glfwPollEvents_eq e w) as [_ [_ L]]; rewrite L end.
  reflexivity.
Qed.

(** Between the call of [processInput] in one round and the call in the
    next, the program leaves the registry and the latch as they are. *)
Lemma rounds_keep_registry_and_latch (f f' : Frame) (l : Loop) :
  same_registry_and_latch (processInput (keys f) (at_input f l))
                          (at_input f' (frame f l)).
Proof.
  unfold same_registry_and_latch, at_input, set_timing; cbn [spawnedSuperellipsoids
    e_pressed_last_frame].
  rewrite frame_spawned, frame_latch, processInput_latch. split; reflexivity.
Qed.

Lemma visited_app (c1 c2 : list GLCall) :
  visited (c1 ++ c2) = visited c1 ++ visited c2.
Proof.
  induction c1 as [|c c1 IH]; [reflexivity|].
  destruct c; cbn [visited app]; try exact IH.
  destruct (translation model); cbn; now rewrite IH.
Qed.

Lemma visited_spawned_calls (clock : nat -> R) (count : nat) (positions : list vec3) :
  forall first : nat, visited (spawned_calls clock first count positions) = positions.
Proof.
  induction positions as [|p rest IH]; intros first; cbn; [reflexivity|].
  now rewrite IH.
Qed.

Lemma visited_event_calls (evs : list Event) : visited (event_calls evs) = [].
Proof.
  unfold event_calls. induction evs as [|ev evs IH]; [reflexivity|].
  cbn [flat_map]. rewrite visited_app, IH. now destruct ev.
Qed.

Lemma visited_frame_calls (f : Frame) (l : Loop) :
  visited (frame_calls f l) = spawnedSuperellipsoids (world (frame f l)).
Proof.
  rewrite frame_spawned. unfold frame_calls.
  rewrite !visited_app, visited_spawned_calls, visited_event_calls.
  cbn. now rewrite app_nil_r.
Qed.

(** *** The render loop *)

Lemma render_loop_closed (frames : list Frame) (l : Loop) :
  windowShouldClose (world l) = true -> render_loop frames l = l.
Proof. intros Hc. destruct frames; cbn; [reflexivity | now rewrite Hc]. Qed.

Lemma render_loop_app (frames1 frames2 : list Frame) :
  forall l : Loop,
    render_loop (frames1 ++ frames2) l = render_loop frames2 (render_loop frames1 l).
Proof.
  induction frames1 as [|f frames1 IH]; intros l; cbn; [reflexivity|].
  destruct (windowShouldClose (world l)) eqn:Hc; [|apply IH].
  now rewrite render_loop_closed.
Qed.

Lemma frame_extends_registry (f : Frame) (l : Loop) :
  spawnedSuperellipsoids (world (frame f l)) =
  spawnedSuperellipsoids (world l) ++
  (if KEY_E (keys f) && negb (e_pressed_last_frame (world l))
   then [spawn_position (processInput (keys f) (at_input f l))] else []).
Proof. rewrite frame_spawned, processInput_spawned. reflexivity. Qed.

Lemma render_loop_extends_registry (frames : list Frame) :
  forall l : Loop, exists added : list vec3,
    spawnedSuperellipsoids (world (render_loop frames l)) =
    spawnedSuperellipsoids (world l) ++ added.
Proof.
  induction frames as [|f frames IH]; intros l; cbn.
  - exists []. now rewrite app_nil_r.
  - destruct (windowShouldClose (world l)).
    + exists []. now rewrite app_nil_r.
    + destruct (IH (frame f l)) as [added Hadd].
      rewrite Hadd, frame_extends_registry, <- app_assoc. eauto.
Qed.

(** C7.  The registry only grows: the start of [main] leaves it as it is,
    and at any later point of the render loop it is the registry of any
    earlier point followed by what was spawned since;
    a round appends at most the one new instance; the draw pass of a round
    visits the registry from its first to its last entry and writes
    nothing but OpenGL calls, so a second pass over an unchanged registry
    visits the same positions in the same order; and after spawning at
    [P1] and then at [P2] the pass visits [P1] before [P2]. *)
Theorem registry_is_append_only :
  (forall (env : Startup) (w : World Camera),
      match main_setup env w with
      | inl (_, w') => spawnedSuperellipsoids w' = spawnedSuperellipsoids w
      | inr l => spawnedSuperellipsoids (world l) = spawnedSuperellipsoids w
      end) /\
  (forall (frames1 frames2 : list Frame) (l : Loop), exists added : list vec3,
      spawnedSuperellipsoids (world (render_loop (frames1 ++ frames2) l)) =
      spawnedSuperellipsoids (world (render_loop frames1 l)) ++ added) /\
  (forall (f : Frame) (l : Loop),
      spawnedSuperellipsoids (world (frame f l)) =
      spawnedSuperellipsoids (world l) ++
      (if KEY_E (keys f) && negb (e_pressed_last_frame (world l))
       then [spawn_position (processInput (keys f) (at_input f l))] else [])) /\
  (forall (f : Frame) (l : Loop),
      gl (world (frame f l)) = gl (world l) ++ frame_calls f l /\
      visited (frame_calls f l) = spawnedSuperellipsoids (world (frame f l))) /\
  (forall (clock : nat -> R) (first count : nat) (positions : list vec3)
          (w : World Camera),
      draw_spawned clock first count positions w =
        call (spawned_calls clock first count positions) w /\
      visited (spawned_calls clock first count positions) = positions) /\
  (forall (P1 P2 : vec3) (w : World Camera) (clock : nat -> R) (first count : nat),
      visited (spawned_calls clock first count
                 (spawnedSuperellipsoids (push_spawned P2 (push_spawned P1 w)))) =
      spawnedSuperellipsoids w ++ [P1; P2]).
Proof.
  split; [|split; [|split; [|split; [|split]]]].
  - intros env w. unfold main_setup.
    destruct (glfwCreateWindow_ok env), (gladLoadGLLoader_ok env); cbn [negb];
      try reflexivity.
    destruct (stbi_load env (getPath env "resources/textures/Solid_yellow.png"));
      reflexivity.
  - intros frames1 frames2 l. rewrite render_loop_app.
    apply render_loop_extends_registry.
  - apply frame_extends_registry.
  - intros f l. split; [apply frame_gl | apply visited_frame_calls].
  - intros clock first count positions w.
    split; [apply draw_spawned_eq | apply visited_spawned_calls].
  - intros P1 P2 w clock first count. rewrite visited_spawned_calls.
    cbn. now rewrite <- app_assoc.
Qed.

(** *** The texture loader *)

Lemma existsb_spawned_calls (clock : nat -> R) (count : nat) (positions : list vec3) :
  forall first : nat,
    existsb is_glTexImage2D (spawned_calls clock first count positions) = false.
Proof. induction positions as [|p rest IH]; intros first; cbn; auto. Qed.

Lemma existsb_event_calls (evs : list Event) :
  existsb is_glTexImage2D (event_calls evs) = false.
Proof.
  unfold event_calls. induction evs as [|ev evs IH]; [reflexivity|].
  cbn [flat_map]. rewrite existsb_app, IH. now destruct ev.
Qed.

Lemma existsb_frame_calls (f : Frame) (l : Loop) :
  existsb is_glTexImage2D (frame_calls f l) = false.
Proof.
  unfold frame_calls.
  rewrite !existsb_app, existsb_spawned_calls, existsb_event_calls. reflexivity.
Qed.

Lemma render_loop_diffuseMap (frames : list Frame) :
  forall l : Loop, diffuseMap (render_loop frames l) = diffuseMap l.
Proof.
  induction frames as [|f frames IH]; intros l; cbn; [reflexivity|].
  destruct (windowShouldClose (world l)); [reflexivity|]. now rewrite IH.
Qed.

Lemma render_loop_gl (frames : list Frame) :
  forall l : Loop, exists calls : list GLCall,
    gl (world (render_loop frames l)) = gl (world l) ++ calls /\
    existsb is_glTexImage2D calls = false.
Proof.
  induction frames as [|f frames IH]; intros l; cbn.
  - exists []. now rewrite app_nil_r.
  - destruct (windowShouldClose (world l)).
    + exists []. now rewrite app_nil_r.
    + destruct (IH (frame f l)) as [calls [G N]].
      exists (frame_calls f l ++ calls).
      rewrite G, frame_gl, <- app_assoc, existsb_app, existsb_frame_calls, N.
      split; reflexivity.
Qed.

(** C9.  When the image is not decoded, [loadTexture] prints
    "Texture failed to load at path: " and the path and returns the name it
    got from [glGenTextures]; [main] does not return there: it goes on into
    the render loop with that name as [diffuseMap], keeps it in every
    round, and no image is ever given to OpenGL for it. *)
Theorem texture_failure_is_not_fatal :
  forall (env : Startup) (w : World Camera),
    glfwCreateWindow_ok env = true ->
    gladLoadGLLoader_ok env = true ->
    stbi_load env (getPath env "resources/textures/Solid_yellow.png") = None ->
    let path := getPath env "resources/textures/Solid_yellow.png" in
    let name := texture_name env in
    let message := [OutStr "Texture failed to load at path: "; OutStr path; OutEndl] in
    (forall w' : World Camera,
        loadTexture path name None w' =
        (name, print message (call [glGenTextures name] w'))) /\
    exists l0 : Loop,
      main_setup env w = inr l0 /\
      diffuseMap l0 = name /\
      cout (world l0) =
        cout w ++ message ++ [OutStr "Press E to summon superellipsoid "; OutEndl] /\
      forall frames : list Frame,
        main env frames w =
          (if windowShouldClose (world (render_loop frames l0))
           then Returned 0 (world (render_loop frames l0))
           else Rendering (render_loop frames l0)) /\
        diffuseMap (render_loop frames l0) = name /\
        exists calls : list GLCall,
          gl (world (render_loop frames l0)) = gl w ++ calls /\
          existsb is_glTexImage2D calls = false.
Proof.
  intros env w Hwin Hglad Hload path name message.
  split; [reflexivity|].
  assert (Hsetup : exists l0, main_setup env w = inr l0 /\
            diffuseMap l0 = name /\
            cout (world l0) =
              cout w ++ message ++ [OutStr "Press E to summon superellipsoid "; OutEndl] /\
            exists calls, gl (world l0) = gl w ++ calls /\
                          existsb is_glTexImage2D calls = false).
  { unfold main_setup. rewrite Hwin, Hglad. cbn [negb].
    rewrite Hload. cbn [loadTexture].
    eexists. split; [reflexivity|].
    destruct w as [cam lx ly fm dt lf reg latch close out calls].
    cbn. split; [reflexivity|]. split; [now rewrite <- app_assoc|].
    eexists. split; [rewrite <- app_assoc; reflexivity | reflexivity]. }
  destruct Hsetup as [l0 [Hl0 [Hmap [Hout [calls0 [Hgl0 Hno0]]]]]].
  exists l0. repeat (split; [assumption|]).
  intros frames. unfold main. rewrite Hl0.
  split; [reflexivity|]. split; [now rewrite render_loop_diffuseMap|].
  destruct (render_loop_gl frames l0) as [calls [G N]].
  exists (calls0 ++ calls).
  rewrite G, Hgl0, <- app_assoc, existsb_app, Hno0, N. split; reflexivity.
Qed.

End SceneProperties.

(** ** The sample session *)

Example two_spawns_in_the_sample :
  length (spawnedSuperellipsoids sample_w1) = 0%nat /\
  length (spawnedSuperellipsoids sample_w2) = 1%nat /\
  length (spawnedSuperellipsoids sample_w3) = 1%nat /\
  length (spawnedSuperellipsoids sample_w4) = 1%nat /\
  length (spawnedSuperellipsoids sample_w5) = 2%nat.
Proof. repeat split; reflexivity. Qed.

Example sample_spawn_is_two_units_ahead :
  spawnedSuperellipsoids sample_w2 = [mkvec3 (0 + 0 * 2) (0 + 0 * 2) (3 + -1 * 2)] /\
  (3 + -1 * 2 = 1)%R.
Proof. split; [reflexivity | lra]. Qed.

Example sample_spawn_is_reported :
  cout sample_w2 =
  [OutStr "Superellipsoid spawned at: ("; OutFloat (0 + 0 * 2); OutStr ", ";
   OutFloat (0 + 0 * 2); OutStr ", "; OutFloat (3 + -1 * 2); OutStr ")"; OutEndl].
Proof. reflexivity. Qed.

Lemma spawn_on_rising_edges_witness :
  spawnedSuperellipsoids sample_w1 = [] /\
  spawnedSuperellipsoids sample_w2 = [] ++ [spawn_position sample_w2] /\
  spawnedSuperellipsoids sample_w3 = [] ++ [spawn_position sample_w2] /\
  spawnedSuperellipsoids sample_w4 = [] ++ [spawn_position sample_w2] /\
  spawnedSuperellipsoids sample_w5 =
    [] ++ [spawn_position sample_w2; spawn_position sample_w5] /\
  (forall (k : Keys) (w : World FlyCamera),
      e_pressed_last_frame (processInput k w) = KEY_E k).
Proof.
  exact (spawn_on_rising_edges
           (only_E false) (only_E true) (only_E true) (only_E false) (only_E true)
           sample_world sample_w1 sample_w2 sample_w3 sample_w4
           eq_refl eq_refl eq_refl eq_refl eq_refl eq_refl
           (conj eq_refl eq_refl) (conj eq_refl eq_refl)
           (conj eq_refl eq_refl) (conj eq_refl eq_refl)).
Defined.

Lemma texture_failure_is_not_fatal_witness :
  (forall w' : World FlyCamera,
      loadTexture sample_path 1%Z None w' =
      (1%Z, print [OutStr "Texture failed to load at path: "; OutStr sample_path; OutEndl]
                  (call [glGenTextures 1%Z] w'))) /\
  exists l0 : Loop,
    main_setup sample_startup sample_world = inr l0 /\
    diffuseMap l0 = 1%Z /\
    cout (world l0) =
      cout sample_world ++
      [OutStr "Texture failed to load at path: "; OutStr sample_path; OutEndl] ++
      [OutStr "Press E to summon superellipsoid "; OutEndl] /\
    forall frames : list Frame,
      main sample_startup frames sample_world =
        (if windowShouldClose (world (render_loop frames l0))
         then Returned 0 (world (render_loop frames l0))
         else Rendering (render_loop frames l0)) /\
      diffuseMap (render_loop frames l0) = 1%Z /\
      exists calls : list GLCall,
        gl (world (render_loop frames l0)) = gl sample_world ++ calls /\
        existsb is_glTexImage2D calls = false.
Proof.
  apply (texture_failure_is_not_fatal sample_startup sample_world); reflexivity.
Defined.

(** * Further properties of the generator *)

Local Open Scope Z_scope.

(** ** Any resolution *)

(** The loops make no round for a bound that is not positive: the counts for
    every [stacks] and [slices], positive or not. *)
Theorem generate_counts_on_any_resolution :
  forall (m : Mesh) (a b c n1 n2 : R) (stacks slices : Z),
    Z.of_nat (length (vertices (generateSuperellipsoid m a b c n1 n2 stacks slices))) =
      Z.max 0 (stacks + 1) * Z.max 0 (slices + 1) /\
    Z.of_nat (length (indices (generateSuperellipsoid m a b c n1 n2 stacks slices))) =
      6 * Z.max 0 stacks * Z.max 0 slices.
Proof.
  intros. rewrite generateSuperellipsoid_eq; cbn [vertices indices].
  rewrite length_vertex_rows, length_stored_indices. split; lia.
Qed.

(** ** The triangles *)

Lemma stored_indices_exact (stacks slices : Z) :
  (stacks + 1) * (slices + 1) <= UINT_RANGE ->
  stored_indices stacks slices = spec_indices stacks slices.
Proof.
  intros Hfit. rewrite stored_indices_eq.
  rewrite <- (map_id (spec_indices stacks slices)) at 2.
  apply map_ext_in. intros k Hk. apply spec_indices_bound in Hk.
  apply to_uint_small. lia.
Qed.

Lemma triangles_flat_map_cells (slices : Z) (cells : list (Z * Z)) :
  triangles (flat_map (cell_triangles slices) cells) =
  flat_map (fun cell =>
              let first := fst cell * (slices + 1) + snd cell in
              let second := first + slices + 1 in
              [(first, second, first + 1); (second, second + 1, first + 1)]) cells.
Proof.
  induction cells as [|cell cells IH]; [reflexivity|].
  cbn [flat_map]. unfold cell_triangles at 1. cbn [app triangles].
  now rewrite IH.
Qed.

(** For [stacks, slices >= 1] and a grid of at most 2^32 vertices, the index
    list reads as [2*stacks*slices] triangles, and the three corners of every
    triangle are three different vertices. *)
Theorem generate_triangles_have_distinct_corners :
  forall (m : Mesh) (a b c n1 n2 : R) (stacks slices : Z),
    1 <= stacks -> 1 <= slices -> (stacks + 1) * (slices + 1) <= UINT_RANGE ->
    Z.of_nat (length (triangles
      (indices (generateSuperellipsoid m a b c n1 n2 stacks slices)))) =
      2 * stacks * slices /\
    forall k1 k2 k3 : Z,
      In (k1, k2, k3)
         (triangles (indices (generateSuperellipsoid m a b c n1 n2 stacks slices))) ->
      k1 <> k2 /\ k2 <> k3 /\ k1 <> k3.
Proof.
  intros m a b c n1 n2 stacks slices Hst Hsl Hfit.
  rewrite generateSuperellipsoid_eq; cbn [indices].
  rewrite stored_indices_exact by assumption.
  unfold spec_indices. rewrite triangles_flat_map_cells. split.
  - rewrite flat_map_constant_length with (c := 2%nat) by reflexivity.
    unfold grid_cells.
    rewrite flat_map_constant_length with (c := Z.to_nat slices).
    + rewrite length_zseq. lia.
    + intros i _. now rewrite length_map, length_zseq.
  - intros k1 k2 k3 Hin. apply in_flat_map in Hin.
    destruct Hin as [[i j] [_ Htri]]. cbn [fst snd In] in Htri.
    destruct Htri as [E|[E|[]]]; inversion E; subst; lia.
Qed.

Lemma generate_triangles_have_distinct_corners_witness :
  Z.of_nat (length (triangles
    (indices (generateSuperellipsoid (mkMesh [] []) 1 1 1 1.1 2 64 64)))) = 8192 /\
  In (0, 65, 1)
     (triangles (indices (generateSuperellipsoid (mkMesh [] []) 1 1 1 1.1 2 64 64))) /\
  (0 <> 65 /\ 65 <> 1 /\ 0 <> 1).
Proof.
  destruct (generate_triangles_have_distinct_corners (mkMesh [] []) 1 1 1 1.1 2 64 64)
    as [Hcount Hdistinct]; [lia | lia | unfold UINT_RANGE; lia |].
  assert (Hin : In (0, 65, 1)
            (triangles (indices
               (generateSuperellipsoid (mkMesh [] []) 1 1 1 1.1 2 64 64)))).
  { rewrite generateSuperellipsoid_eq; cbn [indices].
    rewrite stored_indices_exact by (unfold UINT_RANGE; lia).
    unfold spec_indices. rewrite triangles_flat_map_cells.
    apply in_flat_map. exists (0, 0). split.
    - apply in_grid_cells. lia.
    - left. reflexivity. }
  split; [exact Hcount | split; [exact Hin | exact (Hdistinct 0 65 1 Hin)]].
Defined.

(** For [stacks, slices >= 1] and a grid of at most 2^32 vertices, every
    vertex is a corner of some triangle: each position of the vertex list
    occurs in the index list. *)
Theorem generate_indices_reach_every_vertex :
  forall (m : Mesh) (a b c n1 n2 : R) (stacks slices k : Z),
    1 <= stacks -> 1 <= slices -> (stacks + 1) * (slices + 1) <= UINT_RANGE ->
    0 <= k < Z.of_nat (length (vertices
                (generateSuperellipsoid m a b c n1 n2 stacks slices))) ->
    In k (indices (generateSuperellipsoid m a b c n1 n2 stacks slices)).
Proof.
  intros m a b c n1 n2 stacks slices k Hst Hsl Hfit.
  rewrite generateSuperellipsoid_eq; cbn [vertices indices].
  rewrite length_vertex_rows, stored_indices_exact by assumption. intros Hk.
  assert (Hk' : 0 <= k < (stacks + 1) * (slices + 1)) by lia. clear Hk.
  pose proof (Z.div_mod k (slices + 1) ltac:(lia)) as Hdm.
  pose proof (Z.mod_pos_bound k (slices + 1) ltac:(lia)) as Hj.
  assert (Hi : 0 <= k / (slices + 1) <= stacks).
  { split; [apply Z.div_pos; lia|].
    assert (k / (slices + 1) < stacks + 1); [|lia].
    apply Z.div_lt_upper_bound; lia. }
  remember (k / (slices + 1)) as i eqn:Ei. remember (k mod (slices + 1)) as j eqn:Ej.
  clear Ei Ej. unfold spec_indices. apply in_flat_map.
  destruct (Z_lt_dec i stacks) as [Hil|Hil], (Z_lt_dec j slices) as [Hjl|Hjl].
  - exists (i, j). split; [apply in_grid_cells; lia|].
    unfold cell_triangles; cbn [fst snd In]. left. lia.
  - exists (i, j - 1). split; [apply in_grid_cells; lia|].
    unfold cell_triangles; cbn [fst snd In]. right; right; left. lia.
  - exists (i - 1, j). split; [apply in_grid_cells; lia|].
    unfold cell_triangles; cbn [fst snd In]. right; left. lia.
  - exists (i - 1, j - 1). split; [apply in_grid_cells; lia|].
    unfold cell_triangles; cbn [fst snd In]. right; right; right; right; left. lia.
Qed.

Lemma generate_indices_reach_every_vertex_witness :
  In 4224 (indices (generateSuperellipsoid (mkMesh [] []) 1 1 1 1.1 2 64 64)).
Proof.
  apply (generate_indices_reach_every_vertex (mkMesh [] []) 1 1 1 1.1 2 64 64 4224);
    [lia | lia | unfold UINT_RANGE; lia |].
  rewrite generateSuperellipsoid_eq; cbn [vertices].
  rewrite length_vertex_rows. lia.
Defined.

(** ** Signed powers *)

Local Open Scope R_scope.

Lemma std_pow_pos (x y : R) : 0 < x -> 0 < std_pow x y.
Proof.
  intros Hx. unfold std_pow. destruct (Req_dec_T x 0) as [Hz|_]; [lra|].
  unfold Rpower. apply exp_pos.
Qed.

Lemma std_pow_0 (y : R) : 0 < y -> std_pow 0 y = 0.
Proof.
  intros Hy. unfold std_pow. destruct (Req_dec_T 0 0) as [_|Hne]; [|now elim Hne].
  destruct (Req_dec_T y 0); [lra | reflexivity].
Qed.

Lemma std_pow_1 (y : R) : std_pow 1 y = 1.
Proof.
  unfold std_pow. destruct (Req_dec_T 1 0) as [H10|_]; [lra|].
  unfold Rpower. now rewrite ln_1, Rmult_0_r, exp_0.
Qed.

Lemma std_pow_le_1 (x y : R) : 0 <= x <= 1 -> 0 < y -> 0 <= std_pow x y <= 1.
Proof.
  intros [Hx0 Hx1] Hy.
  destruct (Req_dec_T x 0) as [->|Hnz]; [rewrite std_pow_0 by assumption; lra|].
  destruct (Req_dec_T x 1) as [->|Hn1]; [rewrite std_pow_1; lra|].
  split; [left; apply std_pow_pos; lra|].
  unfold std_pow. destruct (Req_dec_T x 0) as [Hz|_]; [contradiction|].
  unfold Rpower. rewrite <- exp_0. left. apply exp_increasing.
  assert (Hln : ln x < 0) by (rewrite <- ln_1; apply ln_increasing; lra).
  nra.
Qed.

Lemma Rabs_minus_1 : Rabs (-1) = 1.
Proof. rewrite Rabs_left; lra. Qed.

Lemma sgn_cases (t : R) : (t < 0 /\ sgn t = -1) \/ (0 <= t /\ sgn t = 1).
Proof. unfold sgn. destruct (Rlt_dec t 0); [left | right]; split; lra. Qed.

Lemma Rabs_powe (t e : R) : Rabs (powe t e) = Rabs (std_pow (Rabs t) e).
Proof.
  unfold powe. rewrite Rabs_mult.
  destruct (sgn_cases t) as [[_ ->]|[_ ->]].
  - rewrite Rabs_minus_1. ring.
  - rewrite Rabs_R1. ring.
Qed.

Lemma powe_le_1 (t e : R) : -1 <= t <= 1 -> 0 < e -> Rabs (powe t e) <= 1.
Proof.
  intros Ht He. rewrite Rabs_powe.
  assert (Habs : 0 <= Rabs t <= 1).
  { split; [apply Rabs_pos | apply Rabs_le; lra]. }
  pose proof (std_pow_le_1 (Rabs t) e Habs He) as [H0 H1].
  rewrite Rabs_right; lra.
Qed.


Lemma powe_eq_0 (t e : R) : powe t e = 0 -> t = 0.
Proof.
  intros Hp. destruct (Req_dec_T t 0) as [Hz|Hnz]; [assumption|].
  exfalso. assert (Hpos : 0 < std_pow (Rabs t) e) by (apply std_pow_pos, Rabs_pos_lt, Hnz).
  unfold powe in Hp. destruct (sgn_cases t) as [[_ Hs]|[_ Hs]]; rewrite Hs in Hp; lra.
Qed.



Lemma in_vertex_rows (a b c n1 n2 : R) (stacks slices : Z) (vtx : Vertex) :
  In vtx (vertex_rows a b c n1 n2 stacks slices) ->
  exists i j : Z, (0 <= i <= stacks)%Z /\ (0 <= j <= slices)%Z /\
                  vtx = make_vertex a b c n1 n2 stacks slices i j.
Proof.
  unfold vertex_rows. intros Hin. apply in_flat_map in Hin.
  destruct Hin as [i [Hi Hrow]]. apply in_map_iff in Hrow.
  destruct Hrow as [j [<- Hj]]. apply in_zseq in Hi, Hj.
  exists i, j. repeat split; lia.
Qed.

(** ** The box around the mesh *)

Lemma scaled_by_fractions (k p q : R) :
  0 <= k -> 0 <= p <= 1 -> 0 <= q <= 1 -> k * p * q <= k /\ k * p <= k.
Proof.
  intros Hk Hp Hq.
  assert (H1 : k * p <= k) by nra.
  assert (H2 : 0 <= k * p) by nra.
  split; [nra | assumption].
Qed.

(** ** The normals *)

Lemma dot_vscale (p : vec3) (k : R) :
  dot (vscale p k) (vscale p k) = k * k * dot p p.
Proof. unfold dot, vscale; cbn [vx vy vz]. ring. Qed.

Lemma vlength_normalize (p : vec3) : 0 < dot p p -> vlength (normalize p) = 1.
Proof.
  intros Hd. unfold vlength, normalize. rewrite dot_vscale.
  assert (Hs : 0 < sqrt (dot p p)) by (apply sqrt_lt_R0, Hd).
  rewrite <- (sqrt_sqrt (dot p p)) at 3 by lra.
  replace (1 / sqrt (dot p p) * (1 / sqrt (dot p p)) *
           (sqrt (dot p p) * sqrt (dot p p))) with 1 by (field; lra).
  apply sqrt_1.
Qed.

Lemma dot_pos (p : vec3) : vx p <> 0 \/ vy p <> 0 \/ vz p <> 0 -> 0 < dot p p.
Proof.
  intros Hnz. unfold dot.
  pose proof (Rle_0_sqr (vx p)) as Hx. pose proof (Rle_0_sqr (vy p)) as Hy.
  pose proof (Rle_0_sqr (vz p)) as Hz. unfold Rsqr in Hx, Hy, Hz.
  destruct Hnz as [H|[H|H]].
  - pose proof (Rsqr_pos_lt _ H) as Hp. unfold Rsqr in Hp. lra.
  - pose proof (Rsqr_pos_lt _ H) as Hp. unfold Rsqr in Hp. lra.
  - pose proof (Rsqr_pos_lt _ H) as Hp. unfold Rsqr in Hp. lra.
Qed.

Lemma quotient_nonzero (x d : R) : x <> 0 -> d <> 0 -> x / (d * d) <> 0.
Proof.
  intros Hx Hd Hq. apply Hx.
  replace x with (x / (d * d) * (d * d)) by (field; exact Hd).
  rewrite Hq. ring.
Qed.

Lemma product_nonzero (x y : R) : x <> 0 -> y <> 0 -> x * y <> 0.
Proof. intros Hx Hy Hxy. destruct (Rmult_integral _ _ Hxy); contradiction. Qed.

(** A point of the surface is never the origin, for scales other than 0. *)
Lemma position_nonzero (a b c n1 n2 u v : R) :
  a <> 0 -> b <> 0 -> c <> 0 ->
  a * powe (cos u) n1 * powe (cos v) n2 <> 0 \/
  b * powe (cos u) n1 * powe (sin v) n2 <> 0 \/
  c * powe (sin u) n1 <> 0.
Proof.
  intros Ha Hb Hc.
  pose proof (sin2_cos2 u) as Hu. pose proof (sin2_cos2 v) as Hv.
  unfold Rsqr in Hu, Hv.
  destruct (Req_dec_T (powe (sin u) n1) 0) as [Hsu|Hsu].
  - apply powe_eq_0 in Hsu.
    assert (Hcu : powe (cos u) n1 <> 0).
    { intros Hz. apply powe_eq_0 in Hz. rewrite Hsu, Hz in Hu. lra. }
    destruct (Req_dec_T (powe (cos v) n2) 0) as [Hcv|Hcv].
    + right; left. apply powe_eq_0 in Hcv.
      assert (Hsv : powe (sin v) n2 <> 0).
      { intros Hz. apply powe_eq_0 in Hz. rewrite Hcv, Hz in Hv. lra. }
      apply product_nonzero; [apply product_nonzero|]; assumption.
    + left. apply product_nonzero; [apply product_nonzero|]; assumption.
  - right; right. apply product_nonzero; assumption.
Qed.

(** ** Attributes of one vertex *)

Lemma unit_fraction (k n : Z) : (0 <= k <= n)%Z -> (1 <= n)%Z -> 0 <= IZR k / IZR n <= 1.
Proof.
  intros Hk Hn.
  assert (Hn' : 0 < IZR n) by (apply IZR_lt; lia).
  assert (Hk0 : 0 <= IZR k) by (apply IZR_le; lia).
  assert (Hkn : IZR k <= IZR n) by (apply IZR_le; lia).
  pose proof (Rinv_0_lt_compat _ Hn') as Hinv.
  assert (Hone : IZR n * / IZR n = 1) by (apply Rinv_r; lra).
  unfold Rdiv. split; nra.
Qed.

Lemma make_vertex_texcoords (a b c n1 n2 : R) (stacks slices i j : Z) :
  (1 <= stacks)%Z -> (1 <= slices)%Z -> (0 <= i <= stacks)%Z -> (0 <= j <= slices)%Z ->
  0 <= vx2 (TexCoords (make_vertex a b c n1 n2 stacks slices i j)) <= 1 /\
  0 <= vy2 (TexCoords (make_vertex a b c n1 n2 stacks slices i j)) <= 1.
Proof.
  intros Hst Hsl Hi Hj. unfold make_vertex; cbn [TexCoords vx2 vy2].
  split; apply unit_fraction; assumption.
Qed.

Lemma make_vertex_in_box (a b c n1 n2 : R) (stacks slices i j : Z) :
  0 < n1 -> 0 < n2 ->
  Rabs (vx (Position (make_vertex a b c n1 n2 stacks slices i j))) <= Rabs a /\
  Rabs (vy (Position (make_vertex a b c n1 n2 stacks slices i j))) <= Rabs b /\
  Rabs (vz (Position (make_vertex a b c n1 n2 stacks slices i j))) <= Rabs c.
Proof.
  intros H1 H2. unfold make_vertex; cbn [Position vx vy vz].
  rewrite !Rabs_mult.
  set (u := - M_PI / 2 + IZR i / IZR stacks * M_PI).
  set (v := - M_PI + IZR j / IZR slices * 2 * M_PI).
  pose proof (powe_le_1 (cos u) n1 (COS_bound u) H1).
  pose proof (powe_le_1 (sin u) n1 (SIN_bound u) H1).
  pose proof (powe_le_1 (cos v) n2 (COS_bound v) H2).
  pose proof (powe_le_1 (sin v) n2 (SIN_bound v) H2).
  pose proof (Rabs_pos (powe (cos u) n1)).
  pose proof (Rabs_pos (powe (sin u) n1)).
  pose proof (Rabs_pos (powe (cos v) n2)).
  pose proof (Rabs_pos (powe (sin v) n2)).
  repeat split.
  - apply scaled_by_fractions; [apply Rabs_pos | lra | lra].
  - apply scaled_by_fractions; [apply Rabs_pos | lra | lra].
  - apply (scaled_by_fractions (Rabs c) (Rabs (powe (sin u) n1)) 1);
      [apply Rabs_pos | lra | lra].
Qed.

Lemma make_vertex_unit_normal (a b c n1 n2 : R) (stacks slices i j : Z) :
  a <> 0 -> b <> 0 -> c <> 0 ->
  vlength (Normal (make_vertex a b c n1 n2 stacks slices i j)) = 1.
Proof.
  intros Ha Hb Hc. unfold make_vertex; cbn [Normal].
  set (u := - M_PI / 2 + IZR i / IZR stacks * M_PI).
  set (v := - M_PI + IZR j / IZR slices * 2 * M_PI).
  apply vlength_normalize, dot_pos; cbn [vx vy vz].
  destruct (position_nonzero a b c n1 n2 u v Ha Hb Hc) as [H|[H|H]].
  - left. now apply quotient_nonzero.
  - right; left. now apply quotient_nonzero.
  - right; right. now apply quotient_nonzero.
Qed.

(** For [stacks, slices >= 1] and positive exponents, every vertex lies in
    the box [[-|a|, |a|] x [-|b|, |b|] x [-|c|, |c|]]. *)
Theorem generate_vertices_in_box :
  forall (m : Mesh) (a b c n1 n2 : R) (stacks slices : Z) (vtx : Vertex),
    (1 <= stacks)%Z -> (1 <= slices)%Z -> 0 < n1 -> 0 < n2 ->
    In vtx (vertices (generateSuperellipsoid m a b c n1 n2 stacks slices)) ->
    Rabs (vx (Position vtx)) <= Rabs a /\
    Rabs (vy (Position vtx)) <= Rabs b /\
    Rabs (vz (Position vtx)) <= Rabs c.
Proof.
  intros m a b c n1 n2 stacks slices vtx _ _ H1 H2 Hin.
  rewrite generateSuperellipsoid_eq in Hin; cbn [vertices] in Hin.
  apply in_vertex_rows in Hin. destruct Hin as [i [j [_ [_ ->]]]].
  now apply make_vertex_in_box.
Qed.

Lemma generate_vertices_in_box_witness :
  Rabs (vx (Position (make_vertex 1 1 1 1.1 2 64 64 16 48))) <= Rabs 1 /\
  Rabs (vy (Position (make_vertex 1 1 1 1.1 2 64 64 16 48))) <= Rabs 1 /\
  Rabs (vz (Position (make_vertex 1 1 1 1.1 2 64 64 16 48))) <= Rabs 1.
Proof.
  apply (generate_vertices_in_box (mkMesh [] []) 1 1 1 1.1 2 64 64);
    [lia | lia | lra | lra |].
  apply nth_error_In with (n := Z.to_nat (16 * (64 + 1) + 48)).
  rewrite generateSuperellipsoid_eq; cbn [vertices].
  apply nth_error_vertex_rows; lia.
Defined.

(** For [stacks, slices >= 1], scales other than 0 and positive exponents,
    every normal has length 1. *)
Theorem generate_normals_are_unit :
  forall (m : Mesh) (a b c n1 n2 : R) (stacks slices : Z) (vtx : Vertex),
    (1 <= stacks)%Z -> (1 <= slices)%Z -> a <> 0 -> b <> 0 -> c <> 0 ->
    0 < n1 -> 0 < n2 ->
    In vtx (vertices (generateSuperellipsoid m a b c n1 n2 stacks slices)) ->
    vlength (Normal vtx) = 1.
Proof.
  intros m a b c n1 n2 stacks slices vtx _ _ Ha Hb Hc _ _ Hin.
  rewrite generateSuperellipsoid_eq in Hin; cbn [vertices] in Hin.
  apply in_vertex_rows in Hin. destruct Hin as [i [j [_ [_ ->]]]].
  now apply make_vertex_unit_normal.
Qed.

Lemma generate_normals_are_unit_witness :
  vlength (Normal (make_vertex 1 1 1 1.1 2 64 64 16 48)) = 1.
Proof.
  apply (generate_normals_are_unit (mkMesh [] []) 1 1 1 1.1 2 64 64);
    [lia | lia | lra | lra | lra | lra | lra |].
  apply nth_error_In with (n := Z.to_nat (16 * (64 + 1) + 48)).
  rewrite generateSuperellipsoid_eq; cbn [vertices].
  apply nth_error_vertex_rows; lia.
Defined.

(** For [stacks, slices >= 1] every texture coordinate lies in the unit
    square. *)
Theorem generate_texcoords_in_unit_square :
  forall (m : Mesh) (a b c n1 n2 : R) (stacks slices : Z) (vtx : Vertex),
    (1 <= stacks)%Z -> (1 <= slices)%Z ->
    In vtx (vertices (generateSuperellipsoid m a b c n1 n2 stacks slices)) ->
    0 <= vx2 (TexCoords vtx) <= 1 /\ 0 <= vy2 (TexCoords vtx) <= 1.
Proof.
  intros m a b c n1 n2 stacks slices vtx Hst Hsl Hin.
  rewrite generateSuperellipsoid_eq in Hin; cbn [vertices] in Hin.
  apply in_vertex_rows in Hin. destruct Hin as [i [j [Hi [Hj ->]]]].
  now apply make_vertex_texcoords.
Qed.

Lemma generate_texcoords_in_unit_square_witness :
  0 <= vx2 (TexCoords (make_vertex 1 1 1 1.1 2 64 64 16 48)) <= 1 /\
  0 <= vy2 (TexCoords (make_vertex 1 1 1 1.1 2 64 64 16 48)) <= 1.
Proof.
  apply (generate_texcoords_in_unit_square (mkMesh [] []) 1 1 1 1.1 2 64 64);
    [lia | lia |].
  apply nth_error_In with (n := Z.to_nat (16 * (64 + 1) + 48)).
  rewrite generateSuperellipsoid_eq; cbn [vertices].
  apply nth_error_vertex_rows; lia.
Defined.

(** ** The seam and the poles *)







(** ** The sphere *)

(** For [stacks, slices >= 1], with [a = b = c = 1] and [n1 = n2 = 1], the
    normal of every vertex is its position: on the sphere the normal the
    generator computes is the true one. *)
Theorem generate_sphere_normal_is_position :
  forall (m : Mesh) (stacks slices : Z) (vtx : Vertex),
    (1 <= stacks)%Z -> (1 <= slices)%Z ->
    In vtx (vertices (generateSuperellipsoid m 1 1 1 1 1 stacks slices)) ->
    Normal vtx = Position vtx.
Proof.
  intros m stacks slices vtx _ _ Hin.
  rewrite generateSuperellipsoid_eq in Hin; cbn [vertices] in Hin.
  apply in_vertex_rows in Hin. destruct Hin as [i [j [_ [_ ->]]]].
  unfold make_vertex; cbn [Normal Position].
  rewrite !powe_1.
  set (u := - M_PI / 2 + IZR i / IZR stacks * M_PI).
  set (v := - M_PI + IZR j / IZR slices * 2 * M_PI).
  replace (1 * cos u * cos v / (1 * 1)) with (1 * cos u * cos v) by field.
  replace (1 * cos u * sin v / (1 * 1)) with (1 * cos u * sin v) by field.
  replace (1 * sin u / (1 * 1)) with (1 * sin u) by field.
  unfold normalize. rewrite sphere_point_norm, sqrt_1.
  unfold vscale; cbn [vx vy vz]. f_equal; field.
Qed.

Lemma generate_sphere_normal_is_position_witness :
  Normal (make_vertex 1 1 1 1 1 64 64 16 48) = Position (make_vertex 1 1 1 1 1 64 64 16 48).
Proof.
  apply (generate_sphere_normal_is_position (mkMesh [] []) 64 64); [lia | lia |].
  apply nth_error_In with (n := Z.to_nat (16 * (64 + 1) + 48)).
  rewrite generateSuperellipsoid_eq; cbn [vertices].
  apply nth_error_vertex_rows; lia.
Defined.

(** For [stacks, slices >= 1], scales other than 0 and [n1 = n2 = 1], every
    vertex lies on the ellipsoid [x^2/a^2 + y^2/b^2 + z^2/c^2 = 1]. *)
Theorem generate_ellipsoid_equation :
  forall (m : Mesh) (a b c : R) (stacks slices : Z) (vtx : Vertex),
    (1 <= stacks)%Z -> (1 <= slices)%Z -> a <> 0 -> b <> 0 -> c <> 0 ->
    In vtx (vertices (generateSuperellipsoid m a b c 1 1 stacks slices)) ->
    (vx (Position vtx) / a) ^ 2 + (vy (Position vtx) / b) ^ 2 +
    (vz (Position vtx) / c) ^ 2 = 1.
Proof.
  intros m a b c stacks slices vtx _ _ Ha Hb Hc Hin.
  rewrite generateSuperellipsoid_eq in Hin; cbn [vertices] in Hin.
  apply in_vertex_rows in Hin. destruct Hin as [i [j [_ [_ ->]]]].
  unfold make_vertex; cbn [Position vx vy vz]. rewrite !powe_1.
  set (u := - M_PI / 2 + IZR i / IZR stacks * M_PI).
  set (v := - M_PI + IZR j / IZR slices * 2 * M_PI).
  pose proof (sin2_cos2 u) as Hu. pose proof (sin2_cos2 v) as Hv.
  unfold Rsqr in Hu, Hv.
  replace ((a * cos u * cos v / a) ^ 2 + (b * cos u * sin v / b) ^ 2 +
           (c * sin u / c) ^ 2)
    with (cos u * cos u * (sin v * sin v + cos v * cos v) + sin u * sin u)
    by (field; repeat split; assumption).
  rewrite Hv. lra.
Qed.

Lemma generate_ellipsoid_equation_witness :
  (vx (Position (make_vertex 3 2 0.5 1 1 64 64 16 48)) / 3) ^ 2 +
  (vy (Position (make_vertex 3 2 0.5 1 1 64 64 16 48)) / 2) ^ 2 +
  (vz (Position (make_vertex 3 2 0.5 1 1 64 64 16 48)) / 0.5) ^ 2 = 1.
Proof.
  apply (generate_ellipsoid_equation (mkMesh [] []) 3 2 0.5 64 64);
    [lia | lia | lra | lra | lra |].
  apply nth_error_In with (n := Z.to_nat (16 * (64 + 1) + 48)).
  rewrite generateSuperellipsoid_eq; cbn [vertices].
  apply nth_error_vertex_rows; lia.
Defined.

(** * Further properties of the scene *)

Section RunProperties.

Context {Camera : Type} `{CameraClass Camera}.

(** ** What one call of [processInput] changes *)

Lemma processInput_fields (k : Keys) (w : World Camera) :
  camera (processInput k w) = moved_camera k (deltaTime w) (camera w) /\
  windowShouldClose (processInput k w) = windowShouldClose w || KEY_ESCAPE k /\
  deltaTime (processInput k w) = deltaTime w /\
  lastFrame (processInput k w) = lastFrame w /\
  cout (processInput k w) =
    cout w ++ (if KEY_E k && negb (e_pressed_last_frame w)
               then spawn_report (spawn_position (processInput k w)) else []).
Proof.
  destruct w as [cam lx ly fm dt lf reg latch close out calls].
  destruct k as [esc kw ks ka kd ke].
  destruct esc, kw, ks, ka, kd, ke, latch, close; cbn;
    rewrite ?app_nil_r; repeat split; reflexivity.
Qed.

(** The movement keys act in the order W, S, A, D, each by the [deltaTime]
    of the round; escape does not cut the call short; and a spawn of the
    same call is placed two units in front of the camera as moved. *)
Theorem movement_precedes_spawn :
  forall (k : Keys) (w : World Camera),
    camera (processInput k w) = moved_camera k (deltaTime w) (camera w) /\
    spawnedSuperellipsoids (processInput k w) =
      spawnedSuperellipsoids w ++
      (if KEY_E k && negb (e_pressed_last_frame w)
       then [vadd (CamPosition (moved_camera k (deltaTime w) (camera w)))
                  (vscale (CamFront (moved_camera k (deltaTime w) (camera w))) 2)]
       else []).
Proof.
  intros k w. destruct (processInput_fields k w) as [Hcam _].
  split; [exact Hcam|].
  rewrite processInput_spawned. unfold spawn_position. now rewrite Hcam.
Qed.

(** ** What the callbacks change *)

Lemma Rminus_self (x : R) : (x - x = 0)%R.
Proof. ring. Qed.

(** After a cursor event the stored position is the event's and
    [firstMouse] is off; the camera is turned by nothing at the first event
    and afterwards by the difference to the stored position, the vertical
    one reversed.  Two events in a row turn the camera by the difference of
    their positions. *)
Theorem mouse_callback_offsets :
  forall (xpos ypos : R) (w : World Camera),
    lastX (mouse_callback xpos ypos w) = xpos /\
    lastY (mouse_callback xpos ypos w) = ypos /\
    firstMouse (mouse_callback xpos ypos w) = false /\
    camera (mouse_callback xpos ypos w) =
      (if firstMouse w
       then ProcessMouseMovement 0 0 (camera w)
       else ProcessMouseMovement (xpos - lastX w) (lastY w - ypos) (camera w)) /\
    (forall xpos' ypos' : R,
        camera (mouse_callback xpos' ypos' (mouse_callback xpos ypos w)) =
        ProcessMouseMovement (xpos' - xpos) (ypos - ypos')
          (camera (mouse_callback xpos ypos w))).
Proof.
  intros xpos ypos w.
  destruct w as [cam lx ly fm dt lf reg latch close out calls].
  destruct fm; cbn; rewrite ?Rminus_self; repeat split; reflexivity.
Qed.

Lemma deliver_fields (ev : Event) (w : World Camera) :
  windowShouldClose (deliver ev w) = windowShouldClose w || is_WindowClose ev /\
  deltaTime (deliver ev w) = deltaTime w /\
  lastFrame (deliver ev w) = lastFrame w /\
  cout (deliver ev w) = cout w.
Proof.
  destruct w as [cam lx ly fm dt lf reg latch close out calls].
  destruct ev; cbn; rewrite ?orb_false_r, ?orb_true_r; try (repeat split; reflexivity).
  destruct fm; cbn; repeat split; reflexivity.
Qed.

Lemma glfwPollEvents_fields (evs : list Event) :
  forall w : World Camera,
    windowShouldClose (glfwPollEvents evs w) =
      windowShouldClose w || existsb is_WindowClose evs /\
    deltaTime (glfwPollEvents evs w) = deltaTime w /\
    lastFrame (glfwPollEvents evs w) = lastFrame w /\
    cout (glfwPollEvents evs w) = cout w.
Proof.
  unfold glfwPollEvents. induction evs as [|ev evs IH]; intros w; cbn [fold_left existsb].
  - now rewrite orb_false_r.
  - destruct (IH (deliver ev w)) as [C [D [L O]]].
    destruct (deliver_fields ev w) as [C' [D' [L' O']]].
    rewrite C, D, L, O, C', D', L', O'. now rewrite orb_assoc.
Qed.

(** Delivering events never touches the registry, the latch, the timing or
    the output; it issues one [glViewport] per resize, in order, and sets
    the close flag exactly when a close of the window is among the
    events. *)
Theorem events_leave_the_scene_alone :
  forall (evs : list Event) (w : World Camera),
    spawnedSuperellipsoids (glfwPollEvents evs w) = spawnedSuperellipsoids w /\
    e_pressed_last_frame (glfwPollEvents evs w) = e_pressed_last_frame w /\
    deltaTime (glfwPollEvents evs w) = deltaTime w /\
    lastFrame (glfwPollEvents evs w) = lastFrame w /\
    cout (glfwPollEvents evs w) = cout w /\
    gl (glfwPollEvents evs w) = gl w ++ event_calls evs /\
    windowShouldClose (glfwPollEvents evs w) =
      windowShouldClose w || existsb is_WindowClose evs.
Proof.
  intros evs w.
  destruct (glfwPollEvents_eq evs w) as [G [R L]].
  destruct (glfwPollEvents_fields evs w) as [C [D [F O]]].
  repeat split; assumption.
Qed.

(** ** What one round changes *)

Lemma frame_fields (f : Frame) (l : Loop) :
  windowShouldClose (world (frame f l)) =
    windowShouldClose (world l) || close_requested f /\
  lastFrame (world (frame f l)) = glfwGetTime f 0%nat /\
  deltaTime (world (frame f l)) = (glfwGetTime f 0%nat - lastFrame (world l))%R /\
  cout (world (frame f l)) =
    cout (world l) ++
    (if KEY_E (keys f) && negb (e_pressed_last_frame (world l))
     then spawn_report (spawn_position (processInput (keys f) (at_input f l)))
     else []).
Proof.
  rewrite frame_world.
  match goal with |- context [glfwPollEvents ?e ?w] =>
    destruct (glfwPollEvents_fields e w) as [C [D [L O]]]; rewrite C, D, L, O end.
  unfold call; cbn [windowShouldClose lastFrame deltaTime cout].
  destruct (processInput_fields (keys f) (at_input f l)) as [_ [C' [D' [L' O']]]].
  rewrite C', D', L', O'. unfold close_requested.
  unfold at_input, set_timing; cbn. rewrite orb_assoc. repeat split; reflexivity.
Qed.

(** From an open window, a round leaves the close flag set exactly when
    escape was down in its [processInput] or a close of the window was among
    its events; the loop then makes no further round. *)
Theorem close_request_ends_the_loop :
  forall (f : Frame) (rest : list Frame) (l : Loop),
    windowShouldClose (world l) = false ->
    windowShouldClose (world (frame f l)) = close_requested f /\
    render_loop (f :: rest) l =
      (if close_requested f then frame f l else render_loop rest (frame f l)).
Proof.
  intros f rest l Hopen.
  destruct (frame_fields f l) as [C _]. rewrite Hopen in C. cbn [orb] in C.
  split; [exact C|]. cbn [render_loop]. rewrite Hopen.
  destruct (close_requested f); [|reflexivity].
  now apply render_loop_closed.
Qed.

(** [main] returns -1 exactly when the window or the OpenGL loader fails,
    and then it has printed one line and has made no OpenGL call and no
    spawn; otherwise it returns 0 once the close flag is set and is in the
    render loop until then. *)
Theorem main_exit_status :
  forall (env : Startup) (frames : list Frame) (w : World Camera),
    match main env frames w with
    | Returned status w' =>
        (status = (-1)%Z /\
         glfwCreateWindow_ok env && gladLoadGLLoader_ok env = false /\
         gl w' = gl w /\
         spawnedSuperellipsoids w' = spawnedSuperellipsoids w /\
         exists text : string, cout w' = cout w ++ [OutStr text; OutEndl]) \/
        (status = 0%Z /\
         glfwCreateWindow_ok env && gladLoadGLLoader_ok env = true /\
         windowShouldClose w' = true)
    | Rendering l =>
        glfwCreateWindow_ok env && gladLoadGLLoader_ok env = true /\
        windowShouldClose (world l) = false
    end.
Proof.
  intros env frames w. unfold main, main_setup.
  destruct (glfwCreateWindow_ok env); cbn [negb andb].
  - destruct (gladLoadGLLoader_ok env); cbn [negb].
    + destruct (loadTexture _ _ _ _) as [name w'].
      match goal with |- context [render_loop frames ?l0] =>
        destruct (windowShouldClose (world (render_loop frames l0))) eqn:Hc end.
      * right. repeat split. exact Hc.
      * split; [reflexivity | exact Hc].
    + left. destruct w; cbn. repeat split. eexists. reflexivity.
  - left. destruct w; cbn. repeat split. eexists. reflexivity.
Qed.

(** ** Spawns along a run *)

Lemma rising_edge_length (s latch : bool) (p : vec3) :
  length (if s && negb latch then [p] else []) = if s && negb latch then 1%nat else 0%nat.
Proof. now destruct (s && negb latch). Qed.

(** Along any run of the render loop the registry grows by the number of
    rising edges of the E key over the rounds the loop makes, the latch
    standing for the sample before the first. *)
Theorem spawns_count_rising_edges :
  forall (frames : list Frame) (l : Loop),
    length (spawnedSuperellipsoids (world (render_loop frames l))) =
    (length (spawnedSuperellipsoids (world l)) +
     rising_edges (e_pressed_last_frame (world l))
                  (map (fun f => KEY_E (keys f)) (executed frames l)))%nat.
Proof.
  intros frames. induction frames as [|f frames IH]; intros l; cbn [render_loop executed].
  - cbn. lia.
  - destruct (windowShouldClose (world l)); [cbn; lia|].
    rewrite IH, frame_extends_registry, frame_latch, length_app, rising_edge_length.
    cbn [map rising_edges]. lia.
Qed.

(** Along any run of the render loop, what is printed is one line for each
    instance added to the registry, with its coordinates, in the order of
    the registry, and nothing else. *)
Theorem every_spawn_is_reported :
  forall (frames : list Frame) (l : Loop), exists added : list vec3,
    spawnedSuperellipsoids (world (render_loop frames l)) =
      spawnedSuperellipsoids (world l) ++ added /\
    cout (world (render_loop frames l)) =
      cout (world l) ++ flat_map spawn_report added.
Proof.
  intros frames. induction frames as [|f frames IH]; intros l; cbn [render_loop].
  - exists []. cbn. now rewrite !app_nil_r.
  - destruct (windowShouldClose (world l)).
    + exists []. cbn. now rewrite !app_nil_r.
    + destruct (IH (frame f l)) as [added [Hreg Hout]].
      destruct (frame_fields f l) as [_ [_ [_ Hcout]]].
      rewrite Hreg, Hout, Hcout, frame_extends_registry.
      generalize (spawn_position (processInput (keys f) (at_input f l))) as p.
      generalize (spawnedSuperellipsoids (world l)) as reg.
      generalize (cout (world l)) as out.
      intros out reg p.
      destruct (KEY_E (keys f) && negb (e_pressed_last_frame (world l))).
      * exists (p :: added). cbn [flat_map]. rewrite <- !app_assoc.
        split; reflexivity.
      * exists added. rewrite !app_nil_r. split; reflexivity.
Qed.

(** ** Timing *)

(** After a round [lastFrame] is the first clock reading of the round and
    [deltaTime] is that reading less the previous [lastFrame]; over two
    rounds in a row [deltaTime] is the difference of their first readings,
    whatever events arrive in between. *)
Theorem delta_time_between_rounds :
  forall (f1 f2 : Frame) (l : Loop),
    lastFrame (world (frame f1 l)) = glfwGetTime f1 0%nat /\
    deltaTime (world (frame f1 l)) = (glfwGetTime f1 0%nat - lastFrame (world l))%R /\
    deltaTime (world (frame f2 (frame f1 l))) =
      (glfwGetTime f2 0%nat - glfwGetTime f1 0%nat)%R.
Proof.
  intros f1 f2 l.
  destruct (frame_fields f1 l) as [_ [L1 [D1 _]]].
  destruct (frame_fields f2 (frame f1 l)) as [_ [_ [D2 _]]].
  rewrite D2, L1. repeat split; assumption.
Qed.

(** ** The texture loader on a decoded image *)

(** On a decoded image [loadTexture] prints nothing and returns the name it
    got from [glGenTextures], after binding it, uploading the image and
    setting mipmaps, wrapping and filters.  The format it passes is [GL_RED],
    [GL_RGB] or [GL_RGBA] for 1, 3 or 4 components; for any other component
    count the format is left uninitialised. *)
Theorem loadTexture_uploads_a_decoded_image :
  forall (path : string) (name : Z) (img : Image) (w : World Camera),
  exists format : option GLFormat,
    loadTexture path name (Some img) w =
      (name,
       call [glGenTextures name; glBindTexture name;
             glTexImage2D format (width img) (height img) (data img);
             glGenerateMipmap;
             glTexParameteri "GL_TEXTURE_WRAP_S" "GL_REPEAT";
             glTexParameteri "GL_TEXTURE_WRAP_T" "GL_REPEAT";
             glTexParameteri "GL_TEXTURE_MIN_FILTER" "GL_LINEAR_MIPMAP_LINEAR";
             glTexParameteri "GL_TEXTURE_MAG_FILTER" "GL_LINEAR"] w) /\
    (nrComponents img = 1%Z -> format = Some GL_RED) /\
    (nrComponents img = 3%Z -> format = Some GL_RGB) /\
    (nrComponents img = 4%Z -> format = Some GL_RGBA) /\
    (format = None <->
     nrComponents img <> 1%Z /\ nrComponents img <> 3%Z /\ nrComponents img <> 4%Z).
Proof.
  intros path name img w. unfold loadTexture. rewrite call_call. cbn [app].
  eexists. split; [reflexivity|].
  destruct (Z.eqb_spec (nrComponents img) 1) as [E1|N1].
  { rewrite E1. repeat split; try (intros; reflexivity); try discriminate.
    intros [Hn _]. now elim Hn. }
  destruct (Z.eqb_spec (nrComponents img) 3) as [E3|N3].
  { rewrite E3. repeat split; try (intros; reflexivity); try discriminate.
    intros [_ [Hn _]]. now elim Hn. }
  destruct (Z.eqb_spec (nrComponents img) 4) as [E4|N4].
  { rewrite E4. repeat split; try (intros; reflexivity); try discriminate.
    intros [_ [_ Hn]]. now elim Hn. }
  repeat split; try (intros; contradiction); try assumption.
Qed.

(** ** Buffers and draw calls *)

Lemma default_mesh_sizes (m : Mesh) (a b c n1 n2 : R) :
  Z.of_nat (length (vertices (generateSuperellipsoid_default m a b c n1 n2))) = 4225%Z /\
  Z.of_nat (length (indices (generateSuperellipsoid_default m a b c n1 n2))) = 24576%Z.
Proof.
  unfold generateSuperellipsoid_default.
  rewrite generateSuperellipsoid_eq; cbn [vertices indices].
  rewrite length_vertex_rows, length_stored_indices. split; lia.
Qed.







Lemma filter_spawned_calls (clock : nat -> R) (count : nat) (positions : list vec3) :
  forall first : nat,
    filter is_draw (spawned_calls clock first count positions) =
    repeat (glDrawElements count) (length positions).
Proof.
  induction positions as [|p rest IH]; intros first; cbn; [reflexivity|].
  now rewrite IH.
Qed.

Lemma filter_event_calls (evs : list Event) : filter is_draw (event_calls evs) = [].
Proof.
  unfold event_calls. induction evs as [|ev evs IH]; [reflexivity|].
  cbn [flat_map]. rewrite filter_app, IH. now destruct ev.
Qed.

Lemma filter_light_cube_calls : filter is_draw light_cube_calls = repeat (glDrawArrays 36) 4.
Proof. reflexivity. Qed.

(** The draw calls of a round are one [glDrawElements] for the shape at the
    origin and one for each instance of the registry, each over all 24576
    indices, followed by four [glDrawArrays] of 36 vertices for the light
    cubes. *)
Theorem one_draw_per_instance :
  forall (f : Frame) (l : Loop),
    filter is_draw (frame_calls f l) =
      repeat (glDrawElements (length (indices (mesh (frame f l)))))
             (1 + length (spawnedSuperellipsoids (world (frame f l)))) ++
      repeat (glDrawArrays 36) 4 /\
    Z.of_nat (length (indices (mesh (frame f l)))) = 24576%Z.
Proof.
  intros f l. split.
  - rewrite frame_spawned. unfold frame_calls.
    rewrite !filter_app, filter_spawned_calls, filter_event_calls, filter_light_cube_calls.
    generalize (length (indices (mesh (frame f l)))) as n.
    generalize (length (spawnedSuperellipsoids (processInput (keys f) (at_input f l))))
      as k.
    intros k n. cbn [filter is_draw app repeat Nat.add]. rewrite ?app_nil_r. reflexivity.
  - rewrite frame_mesh.
    apply (default_mesh_sizes (mesh l) 1 1 1
             (morph_n1 (glfwGetTime f 1%nat)) (morph_n2 (glfwGetTime f 1%nat))).
Qed.

(** ** The mesh of a round *)

(** In every round, whatever the clock reads, every vertex of the mesh lies
    in the cube [[-1, 1]^3], has a normal of length 1 and a texture
    coordinate in the unit square. *)
Theorem every_round_mesh_is_well_formed :
  forall (f : Frame) (l : Loop) (vtx : Vertex),
    In vtx (vertices (mesh (frame f l))) ->
    (Rabs (vx (Position vtx)) <= 1 /\ Rabs (vy (Position vtx)) <= 1 /\
     Rabs (vz (Position vtx)) <= 1)%R /\
    vlength (Normal vtx) = 1%R /\
    (0 <= vx2 (TexCoords vtx) <= 1 /\ 0 <= vy2 (TexCoords vtx) <= 1)%R.
Proof.
  intros f l vtx Hin. rewrite frame_mesh, generateSuperellipsoid_eq in Hin.
  cbn [vertices] in Hin. apply in_vertex_rows in Hin.
  destruct Hin as [i [j [Hi [Hj ->]]]].
  pose proof (morph_n1_range (glfwGetTime f 1%nat)) as [H1 _].
  pose proof (morph_n2_range (glfwGetTime f 1%nat)) as [H2 _].
  split; [|split].
  - pose proof (make_vertex_in_box 1 1 1 (morph_n1 (glfwGetTime f 1%nat))
                  (morph_n2 (glfwGetTime f 1%nat)) 64 64 i j) as Hbox.
    rewrite Rabs_R1 in Hbox. apply Hbox; lra.
  - apply make_vertex_unit_normal; lra.
  - apply make_vertex_texcoords; [lia | lia | assumption | assumption].
Qed.

End RunProperties.

(** ** The sample session, continued *)

Lemma close_request_ends_the_loop_witness :
  windowShouldClose (world (frame (sample_round 0 escape_down) sample_loop)) = true /\
  render_loop [sample_round 0 escape_down; sample_round 1 (only_E true)] sample_loop =
    frame (sample_round 0 escape_down) sample_loop.
Proof.
  exact (close_request_ends_the_loop
           (sample_round 0 escape_down) [sample_round 1 (only_E true)] sample_loop
           eq_refl).
Defined.

Lemma every_round_mesh_is_well_formed_witness :
  (Rabs (vx (Position sample_round_vertex)) <= 1 /\
   Rabs (vy (Position sample_round_vertex)) <= 1 /\
   Rabs (vz (Position sample_round_vertex)) <= 1)%R /\
  vlength (Normal sample_round_vertex) = 1%R /\
  (0 <= vx2 (TexCoords sample_round_vertex) <= 1 /\
   0 <= vy2 (TexCoords sample_round_vertex) <= 1)%R.
Proof.
  apply (every_round_mesh_is_well_formed (sample_round 0 (only_E false)) sample_loop).
  rewrite frame_mesh, generateSuperellipsoid_eq; cbn [vertices].
  apply nth_error_In with (n := Z.to_nat (16 * (64 + 1) + 48)).
  apply (nth_error_vertex_rows 1 1 1 (morph_n1 0) (morph_n2 0) 64 64 16 48); lia.
Defined.
